(** * The maze cell of MazeAP2 (src/cell.py)

    A shallow embedding of the Python class [Cell] and the properties of
    its methods.  Python objects live in a store: cells and lists are
    reached through references, so that two cells handed the same list by
    [set_walls] really share it.  Methods are computations in a state and
    exception monad; a raised exception leaves the store as the method
    had it at that point. *)

From Stdlib Require Import ZArith Lia Ascii.
From stdpp Require Import gmap strings list pretty.

Local Open Scope Z_scope.

(** ** Values, objects and the store *)

Abbreviation loc := positive.

(** The Python values that can sit in a wall list or be passed where a
    cell is expected. *)
Inductive value : Type :=
  | VBool (b : bool)
  | VInt (n : Z)
  | VNone
  | VCell (l : loc)
  | VList (l : loc).

#[global] Instance value_eq_dec : EqDecision value.
Proof. solve_decision. Defined.

(** [isinstance(x, bool)] *)
Definition isinstance_bool (x : value) : bool :=
  match x with VBool _ => true | _ => false end.

(** Truth value of an object, as [not x] tests it.  A [Cell] defines
    neither [__bool__] nor [__len__] and is true; a list is true when it
    is not empty, which [truthy] is told by its caller. *)
Definition truthy (list_nonempty : loc → bool) (x : value) : bool :=
  match x with
  | VBool b => b
  | VInt n => negb (n =? 0)
  | VNone => false
  | VCell _ => true
  | VList l => list_nonempty l
  end.

(** The attributes of a [Cell] instance.  [__neighbors] is built once by
    [__init__] and no method writes to it: it is kept as a value.
    [__walls] is a reference to a list object. *)
Record Cell : Type := mkCell {
  row : Z;
  col : Z;
  neighbors : list (Z * Z);
  visited : bool;
  walls : loc;
}.

Record heap : Type := mkHeap {
  cells : gmap positive Cell;
  lists : gmap positive (list value);
}.

Definition empty_heap : heap := mkHeap ∅ ∅.

(** ** Exceptions and the monad *)

Inductive exn : Type :=
  | AssertionError (msg : string)
  | IndexError (msg : string)
  | DanglingReference.
(* [DanglingReference] is not a Python exception: it is what the model
   answers for a reference that names no object of the store, which no
   reference returned by [Cell_init] or [new_list] does. *)

Definition M (A : Type) : Type := heap → (exn + A) * heap.

Definition ret {A} (a : A) : M A := λ h, (inr a, h).
Definition raise {A} (e : exn) : M A := λ h, (inl e, h).
Definition bind {A B} (m : M A) (k : A → M B) : M B :=
  λ h, match m h with
       | (inl e, h') => (inl e, h')
       | (inr a, h') => k a h'
       end.

Declare Scope py_scope.
Delimit Scope py_scope with py.
Notation "x <- m ;; k" := (bind m (λ x, k))
  (at level 100, m at next level, k at level 200, right associativity)
  : py_scope.
Notation "m ;; k" := (bind m (λ _, k))
  (at level 100, k at level 200, right associativity) : py_scope.
Local Open Scope py_scope.

(** [assert b, msg], as Python runs it without [-O]. *)
Definition assert (b : bool) (msg : string) : M unit :=
  if b then ret tt else raise (AssertionError msg).

Definition get_cell (self : loc) : M Cell :=
  λ h, match cells h !! self with
       | Some c => (inr c, h)
       | None => (inl DanglingReference, h)
       end.

Definition put_cell (self : loc) (c : Cell) : M unit :=
  λ h, (inr tt, mkHeap (<[self := c]> (cells h)) (lists h)).

Definition get_list (l : loc) : M (list value) :=
  λ h, match lists h !! l with
       | Some xs => (inr xs, h)
       | None => (inl DanglingReference, h)
       end.

Definition put_list (l : loc) (xs : list value) : M unit :=
  λ h, (inr tt, mkHeap (cells h) (<[l := xs]> (lists h))).

(** A list display [[x0, x1, ...]]: a new list object. *)
Definition new_list (xs : list value) : M loc :=
  λ h, let l := fresh (dom (lists h)) in
       (inr l, mkHeap (cells h) (<[l := xs]> (lists h))).

Definition new_cell (c : Cell) : M loc :=
  λ h, let l := fresh (dom (cells h)) in
       (inr l, mkHeap (<[l := c]> (cells h)) (lists h)).

(** Python's index normalisation: [-len <= i < len], a negative index
    counts from the end. *)
Definition norm_index (len i : Z) : option nat :=
  if (0 <=? i) && (i <? len) then Some (Z.to_nat i)
  else if (- len <=? i) && (i <? 0) then Some (Z.to_nat (len + i))
  else None.

(** [l[i]] *)
Definition list_getitem (l : loc) (i : Z) : M value :=
  xs <- get_list l ;;
  match norm_index (Z.of_nat (length xs)) i with
  | Some n =>
      match xs !! n with
      | Some v => ret v
      | None => raise (IndexError "list index out of range")
      end
  | None => raise (IndexError "list index out of range")
  end.

(** [l[i] = v] *)
Definition list_setitem (l : loc) (i : Z) (v : value) : M unit :=
  xs <- get_list l ;;
  match norm_index (Z.of_nat (length xs)) i with
  | Some n => put_list l (<[n := v]> xs)
  | None => raise (IndexError "list assignment index out of range")
  end.

(** ** The class [Cell] *)

Definition directions : list (Z * Z) := [(-1, 0); (0, 1); (1, 0); (0, -1)].

(** The comprehension of [__init__]. *)
Definition init_neighbors (row column width height : Z) : list (Z * Z) :=
  (λ '(y, x), (row + y, column + x)) <$>
  filter (λ '(y, x), (0 ≤ column + x < width) ∧ (0 ≤ row + y < height))
         directions.

Definition Cell_init (row column width height : Z) : M loc :=
  let nb := init_neighbors row column width height in
  w <- new_list [VBool true; VBool true; VBool true; VBool true] ;;
  new_cell (mkCell row column nb false w).

Definition set_visited (b : bool) (c : Cell) : Cell :=
  mkCell (row c) (col c) (neighbors c) b (walls c).

Definition set_walls_ref (w : loc) (c : Cell) : Cell :=
  mkCell (row c) (col c) (neighbors c) (visited c) w.

Definition make_visited (self : loc) : M unit :=
  c <- get_cell self ;; put_cell self (set_visited true c).

Definition make_unvisited (self : loc) : M unit :=
  c <- get_cell self ;; put_cell self (set_visited false c).

Definition get_column (self : loc) : M Z :=
  c <- get_cell self ;; ret (col c).

Definition get_row (self : loc) : M Z :=
  c <- get_cell self ;; ret (row c).

Definition is_visited (self : loc) : M bool :=
  c <- get_cell self ;; ret (visited c).

Definition get_neighbors (self : loc) : M (list (Z * Z)) :=
  c <- get_cell self ;; ret (neighbors c).

Definition list_nonempty_in (h : heap) (l : loc) : bool :=
  match lists h !! l with Some [] => false | _ => true end.

(** [not x] *)
Definition py_not (x : value) : M bool :=
  λ h, (inr (negb (truthy (list_nonempty_in h) x)), h).

(** The [for] loop of [get_accessible_neighbors], with its counter [i]
    and its accumulator [accessibles]. *)
Fixpoint accessible_loop (self : loc) (dirs : list (Z * Z)) (i : Z)
    (accessibles : list (Z * Z)) : M (list (Z * Z)) :=
  match dirs with
  | [] => ret accessibles
  | (y, x) :: dirs' =>
      c <- get_cell self ;;
      accessibles' <-
        (if bool_decide ((row c + y, col c + x) ∈ neighbors c) then
           v <- list_getitem (walls c) i ;;
           nv <- py_not v ;;
           if nv then ret (accessibles ++ [(row c + y, col c + x)])
           else ret accessibles
         else ret accessibles) ;;
      accessible_loop self dirs' (i + 1) accessibles'
  end.

Definition get_accessible_neighbors (self : loc) : M (list (Z * Z)) :=
  accessible_loop self directions 0 [].

(** ["({}, {})".format(self.__row, self.__col)] *)
Definition Cell_str (self : loc) : M string :=
  c <- get_cell self ;;
  ret ("(" +:+ pretty (row c) +:+ ", " +:+ pretty (col c) +:+ ")").

Definition Cell_repr (self : loc) : M string := Cell_str self.

Definition set_walls (self : loc) (l : loc) : M unit :=
  xs <- get_list l ;;
  assert (Z.of_nat (length xs) =? 4) "The list should have 4 elements" ;;
  xs <- get_list l ;;
  assert (forallb isinstance_bool xs) "Only booleans should be inside" ;;
  c <- get_cell self ;;
  put_cell self (set_walls_ref l c).

Definition remove_wall (self : loc) (i : Z) : M unit :=
  c <- get_cell self ;;
  list_setitem (walls c) i (VBool false).

Definition get_walls (self : loc) : M loc :=
  c <- get_cell self ;; ret (walls c).

(** [isinstance(x, Cell)], and the reference of the cell when it holds. *)
Definition as_Cell (x : value) : option loc :=
  match x with VCell l => Some l | _ => None end.

Definition remove_wall_between_cell (self : loc) (another_cell : value)
    : M unit :=
  match as_Cell another_cell with
  | None => raise (AssertionError "The cell given should be a Cell object")
  | Some other =>
      assert (negb (bool_decide (self = other)))
             "The given cell should be another cell" ;;
      r <- get_row other ;;
      k <- get_column other ;;
      c <- get_cell self ;;
      assert (bool_decide ((r, k) ∈ neighbors c))
             "The two cells are not neighbors" ;;
      c <- get_cell self ;;
      k <- get_column other ;;
      let col_diff := col c - k in
      r <- get_row other ;;
      let row_diff := row c - r in
      if negb (col_diff =? 0) then
        remove_wall self (2 + col_diff) ;;
        remove_wall other (2 - col_diff)
      else
        remove_wall self (1 - row_diff) ;;
        remove_wall other (1 + row_diff)
  end.

(** ** Reading a store *)

Definition walls_of (h : heap) (c : loc) : option (list value) :=
  x ← cells h !! c; lists h !! walls x.

Definition bools (bs : list bool) : list value := VBool <$> bs.

(** The store in which the wall at index [n] of list [w] is cleared. *)
Definition clear_wall (w : loc) (n : nat) (h : heap) : heap :=
  mkHeap (cells h) (alter (<[n := VBool false]>) w (lists h)).

(** The wall index of a direction is its position in [directions], as
    the counter [i] of [get_accessible_neighbors] pairs them.  The wall
    of cell [c] facing the coordinate [p] is the one of the direction
    that leads from [c] to [p]. *)
Definition facing (c : Cell) (p : Z * Z) : option nat :=
  fst <$> list_find (λ d, d = (p.1 - row c, p.2 - col c)) directions.

Definition position (c : Cell) : Z * Z := (row c, col c).

(** The wall of [c] facing [p] is [False] in the wall list [ws]. *)
Definition wall_removed (c : Cell) (ws : list value) (p : Z * Z) : bool :=
  match facing c p with
  | Some i => bool_decide (ws !! i = Some (VBool false))
  | None => false
  end.

(** A cell whose neighbor list is the one [__init__] computes, for some
    maze dimensions. *)
Definition constructed (c : Cell) : Prop :=
  ∃ width height, neighbors c = init_neighbors (row c) (col c) width height.

(** A cell object of the store with its wall list, of four entries. *)
Definition cell_at (h : heap) (a : loc) (c : Cell) (ws : list value) : Prop :=
  cells h !! a = Some c ∧ lists h !! walls c = Some ws ∧ length ws = 4%nat.

(** The names the specification gives to the failures of the source:
    the assertion on the neighbor list is [NotAdjacent], the other
    assertions are [InvalidArgument], an index error is
    [IndexOutOfRange].  Nothing in the source is an [InvalidGeometry]. *)
Inductive error_kind : Type :=
  InvalidGeometry | InvalidArgument | NotAdjacent | IndexOutOfRange.

Definition kind_of (e : exn) : option error_kind :=
  match e with
  | AssertionError msg =>
      if bool_decide (msg = "The two cells are not neighbors")
      then Some NotAdjacent else Some InvalidArgument
  | IndexError _ => Some IndexOutOfRange
  | DanglingReference => None
  end.

(** In bounds of a [width] by [height] maze. *)
Definition in_bounds (width height : Z) (p : Z * Z) : Prop :=
  0 ≤ p.1 < height ∧ 0 ≤ p.2 < width.

(** One unit away along exactly one axis. *)
Definition unit_step (p q : Z * Z) : Prop :=
  (Z.abs (q.1 - p.1) = 1 ∧ q.2 = p.2) ∨ (q.1 = p.1 ∧ Z.abs (q.2 - p.2) = 1).

(** The store in which list [l] has become the walls of cell [a]. *)
Definition with_walls (a l : loc) (c : Cell) (h : heap) : heap :=
  mkHeap (<[a := set_walls_ref l c]> (cells h)) (lists h).

(** ** Calls of the public interface *)

(** One call of the interface, by a client that may also build lists of
    its own to hand to [set_walls]. *)
Inductive call : Type :=
  | CallInit (row column width height : Z)
  | CallList (xs : list value)
  | CallMakeVisited (self : loc)
  | CallMakeUnvisited (self : loc)
  | CallGetColumn (self : loc)
  | CallGetRow (self : loc)
  | CallIsVisited (self : loc)
  | CallGetNeighbors (self : loc)
  | CallGetAccessibleNeighbors (self : loc)
  | CallRepr (self : loc)
  | CallStr (self : loc)
  | CallSetWalls (self : loc) (l : loc)
  | CallRemoveWall (self : loc) (i : Z)
  | CallGetWalls (self : loc)
  | CallRemoveWallBetweenCell (self : loc) (another_cell : value).

(** The store a call leaves, whether it returns or raises. *)
Definition exec (c : call) (h : heap) : heap :=
  match c with
  | CallInit r k w ht => (Cell_init r k w ht h).2
  | CallList xs => (new_list xs h).2
  | CallMakeVisited a => (make_visited a h).2
  | CallMakeUnvisited a => (make_unvisited a h).2
  | CallGetColumn a => (get_column a h).2
  | CallGetRow a => (get_row a h).2
  | CallIsVisited a => (is_visited a h).2
  | CallGetNeighbors a => (get_neighbors a h).2
  | CallGetAccessibleNeighbors a => (get_accessible_neighbors a h).2
  | CallRepr a => (Cell_repr a h).2
  | CallStr a => (Cell_str a h).2
  | CallSetWalls a l => (set_walls a l h).2
  | CallRemoveWall a i => (remove_wall a i h).2
  | CallGetWalls a => (get_walls a h).2
  | CallRemoveWallBetweenCell a v => (remove_wall_between_cell a v h).2
  end.

Definition exec_all (cs : list call) (h : heap) : heap :=
  foldl (λ h c, exec c h) h cs.

(** Every cell of [h] is in [h'], with its row, its column and its
    neighbor list. *)
Definition same_geometry (h h' : heap) : Prop :=
  ∀ a c, cells h !! a = Some c →
    ∃ c', cells h' !! a = Some c'
          ∧ row c' = row c ∧ col c' = col c ∧ neighbors c' = neighbors c.

(** A computation that keeps the geometry of every cell, however it
    ends. *)
Definition keeps_geometry {A} (m : M A) : Prop :=
  ∀ h, same_geometry h (m h).2.

(** The state of the cells that the interface maintains: every cell
    has the neighbor list of [__init__] and a list of four booleans for
    walls. *)
Definition heap_ok (h : heap) : Prop :=
  ∀ a c, cells h !! a = Some c →
    constructed c
    ∧ ∃ bs, lists h !! walls c = Some (bools bs) ∧ length bs = 4%nat.

Definition keeps_ok {A} (m : M A) : Prop :=
  ∀ h, heap_ok h → heap_ok (m h).2.

(** ** The wall table of the specification *)

Inductive compass : Type := North | East | South | West.

Definition wall_index (d : compass) : nat :=
  match d with North => 0 | East => 1 | South => 2 | West => 3 end.

(** The specification's table of the walls [remove_wall_between_cell]
    clears, on [self] and on [other], by [col_diff] and [row_diff]. *)
Definition spec_wall_table (col_diff row_diff : Z)
    : option (compass * compass) :=
  if col_diff =? -1 then Some (East, West)
  else if col_diff =? 1 then Some (West, East)
  else if row_diff =? -1 then Some (South, North)
  else if row_diff =? 1 then Some (North, South)
  else None.

(** ** Properties of a call of [remove_wall_between_cell] *)

(** Entry [i] is [False] afterwards and every other entry is as before. *)
Definition only_cleared (i : nat) (before after : list value) : Prop :=
  after !! i = Some (VBool false) ∧ ∀ k, k ≠ i → after !! k = before !! k.

(** [a.remove_wall_between_cell(b)] returns, the walls of [a] and [b]
    that face each other are cleared and no other wall of [a] or [b]
    has changed. *)
Definition clears_only_facing_walls (h : heap) (a b : loc) : Prop :=
  ∃ ca cb wa wb i j h' wa' wb',
    cells h !! a = Some ca ∧ cells h !! b = Some cb ∧
    walls_of h a = Some wa ∧ walls_of h b = Some wb ∧
    facing ca (position cb) = Some i ∧ facing cb (position ca) = Some j ∧
    remove_wall_between_cell a (VCell b) h = (inr tt, h') ∧
    walls_of h' a = Some wa' ∧ walls_of h' b = Some wb' ∧
    only_cleared i wa wa' ∧ only_cleared j wb wb'.

(** ** Particular stores *)

(** A program run from the empty store. *)
Definition run {A} (m : M A) : (exn + A) * heap := m empty_heap.

(** Two cells of a 5 by 5 maze, (1, 0) and its northern neighbor (0, 0),
    given one and the same list by [set_walls]. *)
Definition shared_walls : M (loc * loc) :=
  a <- Cell_init 1 0 5 5 ;;
  b <- Cell_init 0 0 5 5 ;;
  l <- new_list (bools [true; true; true; true]) ;;
  set_walls a l ;;
  set_walls b l ;;
  ret (a, b).

Definition shared_walls_heap : heap := (run shared_walls).2.

(** The same two cells as [__init__] leaves them. *)
Definition two_cells : M (loc * loc) :=
  a <- Cell_init 1 0 5 5 ;;
  b <- Cell_init 0 0 5 5 ;;
  ret (a, b).

Definition two_cells_heap : heap := (run two_cells).2.

(** The cell objects of these stores: (1, 0) and (0, 0) with the wall
    list at [w]. *)
Definition cell_1_0 (w : loc) : Cell :=
  mkCell 1 0 [(0, 0); (1, 1); (2, 0)] false w.

Definition cell_0_0 (w : loc) : Cell :=
  mkCell 0 0 [(0, 1); (1, 0)] false w.

Definition all_walls : list value := bools [true; true; true; true].

(** [a.remove_wall_between_cell(b)] and [b.remove_wall_between_cell(a)],
    run on the same store, leave the same walls on [a] and on [b]. *)
Definition same_walls_both_ways (h : heap) (a b : loc) : Prop :=
  let h1 := (remove_wall_between_cell a (VCell b) h).2 in
  let h2 := (remove_wall_between_cell b (VCell a) h).2 in
  walls_of h1 a = walls_of h2 a ∧ walls_of h1 b = walls_of h2 b.

(** A cell constructed above the first row of a 5 by 5 maze, at (-1, 0),
    and the cell (0, 0) of that maze: the second is in the neighbor list
    of the first and the first is not in that of the second. *)
Definition above_the_maze : M (loc * loc) :=
  a <- Cell_init (-1) 0 5 5 ;;
  b <- Cell_init 0 0 5 5 ;;
  ret (a, b).

Definition above_the_maze_heap : heap := (run above_the_maze).2.

Definition cell_above (w : loc) : Cell := mkCell (-1) 0 [(0, 0)] false w.

(** A 1 by 1 maze: one cell, without neighbors. *)
Definition one_cell_heap : heap := (run (Cell_init 0 0 1 1)).2.

(** ** Stores of a maze *)

(** No two cells hold the same wall list. *)
Definition unshared (h : heap) : Prop :=
  ∀ a b ca cb, cells h !! a = Some ca → cells h !! b = Some cb →
    a ≠ b → walls ca ≠ walls cb.

(** The wall lists of the cells are list objects of the store. *)
Definition walls_live (h : heap) : Prop :=
  ∀ a c, cells h !! a = Some c → is_Some (lists h !! walls c).

Definition is_set_walls (c : call) : bool :=
  match c with CallSetWalls _ _ => true | _ => false end.

(** The calls that only read. *)
Definition is_read (c : call) : bool :=
  match c with
  | CallGetColumn _ | CallGetRow _ | CallIsVisited _ | CallGetNeighbors _
  | CallGetAccessibleNeighbors _ | CallRepr _ | CallStr _ | CallGetWalls _ =>
      true
  | _ => false
  end.

(** The cells of a [width] by [height] maze: each in bounds, with the
    neighbor list of [__init__] for these dimensions, and one cell only
    at each position. *)
Definition maze (width height : Z) (h : heap) : Prop :=
  (∀ a c, cells h !! a = Some c →
     neighbors c = init_neighbors (row c) (col c) width height
     ∧ in_bounds width height (position c))
  ∧ (∀ a b ca cb, cells h !! a = Some ca → cells h !! b = Some cb →
       position ca = position cb → a = b).

(** The wall of cell [a] towards the coordinate [p] is removed. *)
Definition open_towards (h : heap) (a : loc) (p : Z * Z) : Prop :=
  ∃ c ws, cells h !! a = Some c ∧ lists h !! walls c = Some ws
          ∧ wall_removed c ws p = true.

(** Every passage can be taken both ways: between two neighboring
    cells, the wall of one is removed exactly when the wall of the
    other is. *)
Definition two_way (h : heap) : Prop :=
  ∀ a b ca cb, cells h !! a = Some ca → cells h !! b = Some cb →
    position cb ∈ neighbors ca →
    (open_towards h a (position cb) ↔ open_towards h b (position ca)).

(** The calls that leave the walls to [remove_wall_between_cell]: no
    constructor, no [set_walls], no [remove_wall]. *)
Definition is_carving (c : call) : bool :=
  match c with
  | CallInit _ _ _ _ | CallSetWalls _ _ | CallRemoveWall _ _ => false
  | _ => true
  end.

(** The cells are the same and hold the same wall lists, and no list
    has left the store. *)
Definition walls_kept (h h' : heap) : Prop :=
  (∀ a, walls <$> cells h' !! a = walls <$> cells h !! a)
  ∧ (∀ l, is_Some (lists h !! l) → is_Some (lists h' !! l)).

Definition keeps_walls {A} (m : M A) : Prop :=
  ∀ h, walls_kept h (m h).2.

(** The calls that construct one cell of a [width] by [height] maze at
    each position of [ps]. *)
Definition construct (width height : Z) (ps : list (Z * Z)) : list call :=
  (λ p, CallInit p.1 p.2 width height) <$> ps.

(** ** The doctests of the source *)

Example doctest_get_neighbors :
  (run (c <- Cell_init 1 3 5 5 ;; get_neighbors c)).1
    = inr [(0, 3); (1, 4); (2, 3); (1, 2)]
  ∧ (run (c <- Cell_init 0 0 5 5 ;; get_neighbors c)).1
    = inr [(0, 1); (1, 0)].
Proof. split; reflexivity. Qed.

Example doctest_get_accessible_neighbors :
  (run (c <- Cell_init 1 3 5 5 ;;
        a0 <- get_accessible_neighbors c ;;
        l <- new_list (bools [true; false; true; false]) ;;
        set_walls c l ;;
        a1 <- get_accessible_neighbors c ;;
        ret (a0, a1))).1
  = inr ([], [(1, 4); (1, 2)]).
Proof. reflexivity. Qed.

Example doctest_str :
  (run (c <- Cell_init 1 2 5 5 ;; Cell_str c)).1 = inr "(1, 2)".
Proof. reflexivity. Qed.

Example doctest_remove_wall :
  ∃ c h, run (c <- Cell_init 1 3 5 5 ;; remove_wall c 2 ;; ret c)
         = (inr c, h)
         ∧ walls_of h c = Some (bools [true; true; false; true]).
Proof. eexists _, _. split; reflexivity. Qed.

Example doctest_make_unvisited :
  (run (c <- Cell_init 1 1 5 5 ;;
        make_visited c ;;
        v1 <- is_visited c ;;
        make_unvisited c ;;
        v2 <- is_visited c ;;
        ret (v1, v2))).1 = inr (true, false).
Proof. reflexivity. Qed.

Example doctest_class :
  let prog :=
    cell <- Cell_init 1 0 5 5 ;;
    n <- get_neighbors cell ;;
    make_visited cell ;;
    l <- new_list (bools [true; false; true; false]) ;;
    set_walls cell l ;;
    a <- get_accessible_neighbors cell ;;
    near_cell <- Cell_init 0 0 5 5 ;;
    remove_wall_between_cell cell (VCell near_cell) ;;
    ret (n, a, cell, near_cell) in
  ∃ h cell near_cell,
    run prog = (inr ([(0, 0); (1, 1); (2, 0)], [(1, 1)], cell, near_cell), h)
    ∧ walls_of h cell = Some (bools [false; false; true; false])
    ∧ walls_of h near_cell = Some (bools [true; true; false; true]).
Proof. eexists _, _, _. vm_compute. split; [reflexivity|]. split; reflexivity. Qed.

(** ** Running computations *)

Lemma bind_ok {A B} (m : M A) (k : A → M B) h a h' :
  m h = (inr a, h') → bind m k h = k a h'.
Proof. unfold bind. by intros ->. Qed.

Lemma bind_raise {A B} (m : M A) (k : A → M B) h e h' :
  m h = (inl e, h') → bind m k h = (inl e, h').
Proof. unfold bind. by intros ->. Qed.

Lemma get_cell_ok h a c : cells h !! a = Some c → get_cell a h = (inr c, h).
Proof. unfold get_cell. by intros ->. Qed.

Lemma get_list_ok h l xs : lists h !! l = Some xs → get_list l h = (inr xs, h).
Proof. unfold get_list. by intros ->. Qed.

Lemma get_row_ok h a c : cells h !! a = Some c → get_row a h = (inr (row c), h).
Proof. intros H. unfold get_row. by rewrite (bind_ok _ _ _ _ _ (get_cell_ok _ _ _ H)). Qed.

Lemma get_column_ok h a c :
  cells h !! a = Some c → get_column a h = (inr (col c), h).
Proof. intros H. unfold get_column. by rewrite (bind_ok _ _ _ _ _ (get_cell_ok _ _ _ H)). Qed.

Lemma get_neighbors_ok h a c :
  cells h !! a = Some c → get_neighbors a h = (inr (neighbors c), h).
Proof. intros H. unfold get_neighbors. by rewrite (bind_ok _ _ _ _ _ (get_cell_ok _ _ _ H)). Qed.

Lemma is_visited_ok h a c :
  cells h !! a = Some c → is_visited a h = (inr (visited c), h).
Proof. intros H. unfold is_visited. by rewrite (bind_ok _ _ _ _ _ (get_cell_ok _ _ _ H)). Qed.

Lemma get_walls_ok h a c :
  cells h !! a = Some c → get_walls a h = (inr (walls c), h).
Proof. intros H. unfold get_walls. by rewrite (bind_ok _ _ _ _ _ (get_cell_ok _ _ _ H)). Qed.

(** ** The constructor *)

Lemma Cell_init_ok r k w ht h :
  let a := fresh (dom (cells h)) in
  let l := fresh (dom (lists h)) in
  Cell_init r k w ht h =
    (inr a,
     mkHeap (<[a := mkCell r k (init_neighbors r k w ht) false l]> (cells h))
            (<[l := bools [true; true; true; true]]> (lists h))).
Proof. reflexivity. Qed.

Lemma fresh_cell h : cells h !! fresh (dom (cells h)) = None.
Proof. apply not_elem_of_dom, is_fresh. Qed.

Lemma fresh_list h : lists h !! fresh (dom (lists h)) = None.
Proof. apply not_elem_of_dom, is_fresh. Qed.

Ltac direction_cases H :=
  unfold directions in H;
  repeat (apply elem_of_cons in H as [H | H]; [try subst; try inversion H; subst |]);
  [.. | by apply elem_of_nil in H].

Lemma elem_of_init_neighbors r k w ht p :
  p ∈ init_neighbors r k w ht ↔
  ∃ y x, (y, x) ∈ directions ∧ p = (r + y, k + x)
         ∧ 0 ≤ k + x < w ∧ 0 ≤ r + y < ht.
Proof.
  unfold init_neighbors. rewrite list_elem_of_fmap. split.
  - intros ([y x] & -> & Hin). apply list_elem_of_filter in Hin as [Hb Hd].
    exists y, x. tauto.
  - intros (y & x & Hd & -> & Hb). exists (y, x). split; [done |].
    apply list_elem_of_filter. tauto.
Qed.

Lemma init_neighbors_length r k w ht :
  (length (init_neighbors r k w ht) ≤ 4)%nat.
Proof.
  unfold init_neighbors. rewrite length_fmap.
  etrans; [apply length_filter | done].
Qed.

Lemma init_neighbors_in_bounds r k w ht p :
  p ∈ init_neighbors r k w ht → in_bounds w ht p ∧ unit_step (r, k) p.
Proof.
  intros (y & x & Hd & -> & Hx & Hy)%elem_of_init_neighbors.
  split; [by split |].
  unfold unit_step; simpl. direction_cases Hd; lia.
Qed.

Lemma init_neighbors_empty r k w ht :
  w ≤ 0 ∨ ht ≤ 0 → init_neighbors r k w ht = [].
Proof.
  intros H. destruct (init_neighbors r k w ht) as [| p nb] eqn:E; [done |].
  assert (Hp : p ∈ init_neighbors r k w ht) by (rewrite E; left).
  apply elem_of_init_neighbors in Hp as (y & x & _ & _ & ? & ?). lia.
Qed.

(** C7.  A cell constructed in bounds of a maze of at least one row and
    one column has at most four neighbors, each in bounds and one unit
    away from the cell along exactly one axis; it is not visited and its
    walls are [[True, True, True, True]]. *)
Theorem fresh_cell_in_bounds r k w ht h :
  1 ≤ w → 1 ≤ ht → 0 ≤ r < ht → 0 ≤ k < w →
  ∃ a h' nb ws,
    Cell_init r k w ht h = (inr a, h')
    ∧ get_neighbors a h' = (inr nb, h')
    ∧ (length nb ≤ 4)%nat
    ∧ (∀ p, p ∈ nb → in_bounds w ht p ∧ unit_step (r, k) p)
    ∧ is_visited a h' = (inr false, h')
    ∧ get_walls a h' = (inr ws, h')
    ∧ lists h' !! ws = Some (bools [true; true; true; true]).
Proof.
  intros _ _ _ _. eexists _, _, _, _.
  split; [apply Cell_init_ok |].
  split; [apply get_neighbors_ok; simpl; apply lookup_insert_eq |]. simpl.
  split; [apply init_neighbors_length |].
  split; [apply init_neighbors_in_bounds |].
  split; [by erewrite is_visited_ok by (simpl; apply lookup_insert_eq) |].
  split; [by erewrite get_walls_ok by (simpl; apply lookup_insert_eq) |].
  simpl. apply lookup_insert_eq.
Qed.

Lemma fresh_cell_in_bounds_witness :
  (1 ≤ 5 ∧ 1 ≤ 5 ∧ 0 ≤ 1 < 5 ∧ 0 ≤ 3 < 5) ∧
  ∃ a h' nb ws,
    Cell_init 1 3 5 5 empty_heap = (inr a, h')
    ∧ get_neighbors a h' = (inr nb, h')
    ∧ (length nb ≤ 4)%nat
    ∧ (∀ p, p ∈ nb → in_bounds 5 5 p ∧ unit_step (1, 3) p)
    ∧ is_visited a h' = (inr false, h')
    ∧ get_walls a h' = (inr ws, h')
    ∧ lists h' !! ws = Some (bools [true; true; true; true]).
Proof.
  split; [lia |]. apply (fresh_cell_in_bounds 1 3 5 5 empty_heap); lia.
Defined.

(** C4, as the specification has it, fails: a cell of an empty maze is
    constructed without any error. *)
Lemma init_empty_maze_returns :
  ¬ ∃ e h', Cell_init 0 0 0 0 empty_heap = (inl e, h')
            ∧ kind_of e = Some InvalidGeometry.
Proof. intros (e & h' & H & _). rewrite Cell_init_ok in H. discriminate. Qed.

(** C4, amended.  [__init__] checks nothing and always returns: the new
    cell stores [row] and [column] as given, is not visited, and its
    neighbor list is empty when [width <= 0] or [height <= 0]. *)
Theorem init_never_fails r k w ht h :
  ∃ a h' c,
    Cell_init r k w ht h = (inr a, h')
    ∧ cells h' !! a = Some c
    ∧ row c = r ∧ col c = k ∧ visited c = false
    ∧ neighbors c = init_neighbors r k w ht
    ∧ (w ≤ 0 ∨ ht ≤ 0 → neighbors c = []).
Proof.
  eexists _, _, _. split; [apply Cell_init_ok |].
  split; [simpl; apply lookup_insert_eq |]. simpl.
  repeat split. apply init_neighbors_empty.
Qed.

(** ** [set_walls] *)

(** C6.  [set_walls] raises an assertion error, an [InvalidArgument],
    on a list whose length is not 4 or that holds a value which is not a
    boolean, and leaves the store as it was; on a list of four booleans
    it makes that list the walls of the cell. *)
Theorem set_walls_checked h a c l xs :
  cells h !! a = Some c → lists h !! l = Some xs →
  (length xs ≠ 4%nat →
     ∃ e, set_walls a l h = (inl e, h) ∧ kind_of e = Some InvalidArgument)
  ∧ ((∃ x, x ∈ xs ∧ isinstance_bool x = false) →
     ∃ e, set_walls a l h = (inl e, h) ∧ kind_of e = Some InvalidArgument)
  ∧ (length xs = 4%nat → (∀ x, x ∈ xs → isinstance_bool x = true) →
     set_walls a l h = (inr tt, with_walls a l c h)
     ∧ walls_of (with_walls a l c h) a = Some xs).
Proof.
  intros Ha Hl. unfold set_walls.
  rewrite (bind_ok _ _ _ _ _ (get_list_ok _ _ _ Hl)).
  assert (Hall : (∃ x, x ∈ xs ∧ isinstance_bool x = false) →
                 forallb isinstance_bool xs = false).
  { intros (x & Hx & Hb). apply not_true_is_false. intros Hf.
    rewrite forallb_forall in Hf. apply list_elem_of_In in Hx.
    specialize (Hf x Hx). congruence. }
  split; [| split].
  - intros Hlen. exists (AssertionError "The list should have 4 elements").
    split; [| reflexivity].
    destruct (Z.eqb_spec (Z.of_nat (length xs)) 4); [lia | reflexivity].
  - intros Hx. apply Hall in Hx.
    destruct (Z.eqb_spec (Z.of_nat (length xs)) 4) as [_ | _].
    + exists (AssertionError "Only booleans should be inside").
      split; [| reflexivity]. unfold assert at 1. unfold bind at 1.
      simpl. rewrite (bind_ok _ _ _ _ _ (get_list_ok _ _ _ Hl)).
      by rewrite Hx.
    + exists (AssertionError "The list should have 4 elements").
      split; reflexivity.
  - intros Hlen Hb. rewrite Hlen. simpl. unfold bind at 1. simpl.
    rewrite (bind_ok _ _ _ _ _ (get_list_ok _ _ _ Hl)).
    assert (forallb isinstance_bool xs = true) as ->.
    { apply forallb_forall. intros x Hx. apply Hb. by apply list_elem_of_In. }
    unfold bind at 1. simpl.
    rewrite (bind_ok _ _ _ _ _ (get_cell_ok _ _ _ Ha)).
    split; [reflexivity |].
    unfold walls_of, with_walls. simpl. by rewrite lookup_insert_eq.
Qed.

Lemma set_walls_checked_witness :
  let h := (run (c <- Cell_init 1 3 5 5 ;;
                 new_list [VBool true; VInt 1; VBool true; VBool true])).2 in
  (cells h !! 1%positive = Some (mkCell 1 3 [(0, 3); (1, 4); (2, 3); (1, 2)] false 1)
   ∧ lists h !! 2%positive = Some [VBool true; VInt 1; VBool true; VBool true])
  ∧ ∃ e, set_walls 1 2 h = (inl e, h) ∧ kind_of e = Some InvalidArgument.
Proof.
  split; [split; reflexivity |].
  eapply set_walls_checked; [reflexivity | reflexivity |].
  exists (VInt 1). split; [| reflexivity]. right; left.
Defined.

(** ** [remove_wall] *)

Lemma norm_index_nonneg len i :
  0 ≤ i < len → norm_index len i = Some (Z.to_nat i).
Proof.
  intros H. unfold norm_index.
  destruct (Z.leb_spec 0 i), (Z.ltb_spec i len); simpl; (done || lia).
Qed.

Lemma norm_index_negative len i :
  - len ≤ i < 0 → norm_index len i = Some (Z.to_nat (len + i)).
Proof.
  intros H. unfold norm_index.
  destruct (Z.leb_spec 0 i), (Z.ltb_spec i len), (Z.leb_spec (- len) i),
    (Z.ltb_spec i 0); simpl; (done || lia).
Qed.

Lemma norm_index_out len i :
  ¬ (- len ≤ i < len) → norm_index len i = None.
Proof.
  intros H. unfold norm_index.
  destruct (Z.leb_spec 0 i), (Z.ltb_spec i len), (Z.leb_spec (- len) i),
    (Z.ltb_spec i 0); simpl; (done || lia).
Qed.

Lemma norm_index_lt len i n : norm_index len i = Some n → (Z.of_nat n < len).
Proof.
  unfold norm_index.
  destruct (Z.leb_spec 0 i), (Z.ltb_spec i len), (Z.leb_spec (- len) i),
    (Z.ltb_spec i 0); simpl; intros [= <-]; lia.
Qed.

Lemma remove_wall_ok h a c ws i n :
  cells h !! a = Some c → lists h !! walls c = Some ws →
  norm_index (Z.of_nat (length ws)) i = Some n →
  remove_wall a i h = (inr tt, clear_wall (walls c) n h).
Proof.
  intros Ha Hw Hn. unfold remove_wall.
  rewrite (bind_ok _ _ _ _ _ (get_cell_ok _ _ _ Ha)). unfold list_setitem.
  rewrite (bind_ok _ _ _ _ _ (get_list_ok _ _ _ Hw)), Hn.
  unfold put_list, clear_wall. by rewrite (alter_alt_Some _ _ _ _ Hw).
Qed.

Lemma remove_wall_out h a c ws i :
  cells h !! a = Some c → lists h !! walls c = Some ws →
  norm_index (Z.of_nat (length ws)) i = None →
  remove_wall a i h
  = (inl (IndexError "list assignment index out of range"), h).
Proof.
  intros Ha Hw Hn. unfold remove_wall.
  rewrite (bind_ok _ _ _ _ _ (get_cell_ok _ _ _ Ha)). unfold list_setitem.
  by rewrite (bind_ok _ _ _ _ _ (get_list_ok _ _ _ Hw)), Hn.
Qed.

Lemma walls_of_clear_wall h a c w n :
  cells h !! a = Some c →
  walls_of (clear_wall w n h) a
  = (if decide (w = walls c) then <[n := VBool false]> else id)
      <$> walls_of h a.
Proof.
  intros Ha. unfold walls_of, clear_wall. simpl. rewrite Ha. simpl.
  rewrite lookup_alter. destruct (decide (w = walls c)) as [-> |]; [done |].
  by destruct (lists h !! walls c).
Qed.

Lemma cell_at_clear_wall h a c ws w n :
  cell_at h a c ws → ∃ ws', cell_at (clear_wall w n h) a c ws'.
Proof.
  intros (Ha & Hw & Hlen). unfold cell_at, clear_wall. simpl.
  rewrite lookup_alter.
  destruct (decide (w = walls c)) as [-> |]; rewrite Hw; simpl.
  - eexists. split; [done |]. split; [done |]. by rewrite length_insert.
  - by exists ws.
Qed.

Lemma clear_wall_comm w1 n1 w2 n2 h :
  clear_wall w1 n1 (clear_wall w2 n2 h) = clear_wall w2 n2 (clear_wall w1 n1 h).
Proof.
  unfold clear_wall. simpl. f_equal.
  destruct (decide (w1 = w2)) as [-> | Hne].
  - rewrite !alter_alter_eq. apply alter_ext. intros xs _. simpl.
    destruct (decide (n1 = n2)) as [-> | Hn]; [done |].
    by apply list_insert_insert_ne.
  - by apply alter_alter_ne.
Qed.

(** C10.  On a cell with its four walls, [remove_wall] accepts the
    indices -4 to -1 and clears the wall at [4 + index]; it raises an
    index error exactly for the indices outside [-4, 4). *)
Theorem remove_wall_negative_index h a c ws i :
  cell_at h a c ws →
  (-4 ≤ i ≤ -1 →
     remove_wall a i h = (inr tt, clear_wall (walls c) (Z.to_nat (4 + i)) h)
     ∧ walls_of (clear_wall (walls c) (Z.to_nat (4 + i)) h) a
       = Some (<[Z.to_nat (4 + i) := VBool false]> ws))
  ∧ (-4 ≤ i < 4 → ∃ h', remove_wall a i h = (inr tt, h'))
  ∧ (¬ (-4 ≤ i < 4) →
     ∃ e, remove_wall a i h = (inl e, h)
          ∧ kind_of e = Some IndexOutOfRange).
Proof.
  intros (Ha & Hw & Hlen). split; [| split].
  - intros Hi. split.
    + apply (remove_wall_ok _ _ c ws); [done | done |].
      rewrite Hlen. apply (norm_index_negative 4). lia.
    + rewrite (walls_of_clear_wall _ _ c) by done.
      rewrite decide_True by done. unfold walls_of. rewrite Ha. simpl.
      by rewrite Hw.
  - intros Hi. destruct (decide (0 ≤ i)).
    + eexists. apply (remove_wall_ok _ _ c ws); [done | done |].
      rewrite Hlen. apply (norm_index_nonneg 4). lia.
    + eexists. apply (remove_wall_ok _ _ c ws); [done | done |].
      rewrite Hlen. apply (norm_index_negative 4). lia.
  - intros Hi. exists (IndexError "list assignment index out of range").
    split; [| reflexivity].
    apply (remove_wall_out _ _ c ws); [done | done |].
    rewrite Hlen. by apply (norm_index_out 4).
Qed.

Lemma remove_wall_negative_index_witness :
  let h := two_cells_heap in
  let c := mkCell 1 0 [(0, 0); (1, 1); (2, 0)] false 1 in
  cell_at h 1 c (bools [true; true; true; true])
  ∧ remove_wall 1 (-1) h = (inr tt, clear_wall 1 3 h)
  ∧ walls_of (clear_wall 1 3 h) 1 = Some (bools [true; true; true; false]).
Proof.
  split; [repeat split |].
  refine (proj1 (remove_wall_negative_index two_cells_heap 1
            (mkCell 1 0 [(0, 0); (1, 1); (2, 0)] false 1)
            (bools [true; true; true; true]) (-1) _) _);
    [repeat split | lia].
Defined.

(** ** [remove_wall_between_cell] *)

Ltac run_reads :=
  repeat (erewrite bind_ok
            by (first [apply get_row_ok | apply get_column_ok
                      | apply get_cell_ok]; eassumption)).

(** Past its three assertions, the method is its two calls of
    [remove_wall]. *)
Lemma remove_wall_between_cell_checked h a b ca cb :
  a ≠ b → cells h !! a = Some ca → cells h !! b = Some cb →
  position cb ∈ neighbors ca →
  remove_wall_between_cell a (VCell b) h =
  (if negb (col ca - col cb =? 0)
   then remove_wall a (2 + (col ca - col cb)) ;;
        remove_wall b (2 - (col ca - col cb))
   else remove_wall a (1 - (row ca - row cb)) ;;
        remove_wall b (1 + (row ca - row cb))) h.
Proof.
  intros Hab Ha Hb Hadj. unfold remove_wall_between_cell. simpl.
  rewrite bool_decide_eq_false_2 by done. simpl.
  unfold bind at 1. simpl. run_reads.
  rewrite bool_decide_eq_true_2 by done.
  unfold bind at 1. simpl. run_reads. done.
Qed.

Lemma adjacent_offset ca cb :
  constructed ca → position cb ∈ neighbors ca →
  (row cb - row ca, col cb - col ca) ∈ directions.
Proof.
  intros (w & ht & ->) (y & x & Hd & Hp & _)%elem_of_init_neighbors.
  unfold position in Hp. injection Hp as -> ->.
  by replace (row ca + y - row ca) with y by lia;
     replace (col ca + x - col ca) with x by lia.
Qed.

(** The walls cleared, and the store left, by a call on two distinct
    cells of which the second is among the neighbors of the first. *)
Lemma remove_wall_between_cell_ok h a b ca cb wa wb :
  a ≠ b → cell_at h a ca wa → cell_at h b cb wb →
  constructed ca → position cb ∈ neighbors ca →
  ∃ da db,
    spec_wall_table (col ca - col cb) (row ca - row cb) = Some (da, db)
    ∧ facing ca (position cb) = Some (wall_index da)
    ∧ facing cb (position ca) = Some (wall_index db)
    ∧ Z.of_nat (wall_index da)
      = (if decide (col ca - col cb ≠ 0) then 2 + (col ca - col cb)
         else 1 - (row ca - row cb))
    ∧ Z.of_nat (wall_index db)
      = (if decide (col ca - col cb ≠ 0) then 2 - (col ca - col cb)
         else 1 + (row ca - row cb))
    ∧ remove_wall_between_cell a (VCell b) h
      = (inr tt, clear_wall (walls cb) (wall_index db)
                   (clear_wall (walls ca) (wall_index da) h)).
Proof.
  intros Hab (Ha & Hwa & Hla) Hcb Hc Hadj.
  rewrite (remove_wall_between_cell_checked h a b ca cb)
    by (done || apply Hcb).
  pose proof (adjacent_offset _ _ Hc Hadj) as Hd.
  unfold facing, position. simpl.
  assert (Hrun : ∀ i j na nb,
    norm_index 4 i = Some na → norm_index 4 j = Some nb →
    (remove_wall a i ;; remove_wall b j) h
    = (inr tt, clear_wall (walls cb) nb (clear_wall (walls ca) na h))).
  { intros i j na nb Hi Hj.
    erewrite bind_ok
      by (apply (remove_wall_ok _ _ ca wa); [done | done | by rewrite Hla]).
    destruct (cell_at_clear_wall _ _ _ _ (walls ca) na Hcb)
      as (wb' & Hb' & Hwb' & Hlb').
    apply (remove_wall_ok _ _ cb wb'); [done | done | by rewrite Hlb']. }
  direction_cases Hd.
  - exists North, South.
    replace (col ca - col cb) with 0 by lia.
    replace (row ca - row cb) with 1 by lia.
    replace (row cb - row ca) with (-1) by lia.
    replace (col cb - col ca) with 0 by lia.
    repeat split. by apply Hrun.
  - exists East, West.
    replace (col ca - col cb) with (-1) by lia.
    replace (row ca - row cb) with 0 by lia.
    replace (row cb - row ca) with 0 by lia.
    replace (col cb - col ca) with 1 by lia.
    repeat split. by apply Hrun.
  - exists South, North.
    replace (col ca - col cb) with 0 by lia.
    replace (row ca - row cb) with (-1) by lia.
    replace (row cb - row ca) with 1 by lia.
    replace (col cb - col ca) with 0 by lia.
    repeat split. by apply Hrun.
  - exists West, East.
    replace (col ca - col cb) with 1 by lia.
    replace (row ca - row cb) with 0 by lia.
    replace (row cb - row ca) with 0 by lia.
    replace (col cb - col ca) with (-1) by lia.
    repeat split. by apply Hrun.
Qed.

(** C3.  A call on the cell itself, in any store, fails its second
    assertion, an [InvalidArgument]; a call on another cell whose
    coordinates are not in the neighbor list fails the third, a
    [NotAdjacent]; both leave the store, and so every wall, as it
    was. *)
Theorem rejected_calls_change_nothing h a :
  (∃ e, remove_wall_between_cell a (VCell a) h = (inl e, h)
        ∧ kind_of e = Some InvalidArgument)
  ∧ (∀ b ca cb,
       cells h !! a = Some ca → cells h !! b = Some cb → a ≠ b →
       position cb ∉ neighbors ca →
       ∃ e, remove_wall_between_cell a (VCell b) h = (inl e, h)
            ∧ kind_of e = Some NotAdjacent).
Proof.
  split.
  - exists (AssertionError "The given cell should be another cell").
    split; [| reflexivity].
    unfold remove_wall_between_cell. simpl.
    by rewrite bool_decide_eq_true_2.
  - intros b ca cb Ha Hb Hab Hadj.
    exists (AssertionError "The two cells are not neighbors").
    split; [| reflexivity].
    unfold remove_wall_between_cell. simpl.
    rewrite bool_decide_eq_false_2 by done. simpl.
    unfold bind at 1. simpl. run_reads.
    by rewrite bool_decide_eq_false_2.
Qed.

Lemma rejected_calls_change_nothing_witness :
  let h := (run (a <- Cell_init 1 0 5 5 ;; Cell_init 3 3 5 5)).2 in
  let ca := cell_1_0 1 in
  let cb := mkCell 3 3 [(2, 3); (3, 4); (4, 3); (3, 2)] false 2 in
  (cells h !! 1%positive = Some ca ∧ cells h !! 2%positive = Some cb
   ∧ (1 ≠ 2)%positive ∧ position cb ∉ neighbors ca)
  ∧ (∃ e, remove_wall_between_cell 1 (VCell 1) one_cell_heap
          = (inl e, one_cell_heap)
          ∧ kind_of e = Some InvalidArgument)
  ∧ (∃ e, remove_wall_between_cell 1 (VCell 1) h = (inl e, h)
          ∧ kind_of e = Some InvalidArgument)
  ∧ (∃ e, remove_wall_between_cell 1 (VCell 2) h = (inl e, h)
          ∧ kind_of e = Some NotAdjacent).
Proof.
  intros h ca cb.
  assert (Hadj : position cb ∉ neighbors ca).
  { unfold position. simpl. intros H.
    repeat (apply elem_of_cons in H as [H | H]; [discriminate |]).
    by apply elem_of_nil in H. }
  split; [done |].
  split; [apply (rejected_calls_change_nothing one_cell_heap 1) |].
  split; [apply (rejected_calls_change_nothing h 1) |].
  by apply (proj2 (rejected_calls_change_nothing h 1) 2%positive ca cb).
Defined.

(** C2.  On two distinct cells, the second among the neighbors of the
    first, the walls cleared are those of the specification's table,
    whose indices are [2 + col_diff] and [2 - col_diff] when [col_diff]
    is not zero and [1 - row_diff] and [1 + row_diff] otherwise: the
    call returns and leaves the store in which these two entries, of
    [self]'s walls and of the other's, are [False]. *)
Theorem cleared_walls_follow_table h a b ca cb wa wb :
  a ≠ b → cell_at h a ca wa → cell_at h b cb wb →
  constructed ca → position cb ∈ neighbors ca →
  ∃ da db,
    spec_wall_table (col ca - col cb) (row ca - row cb) = Some (da, db)
    ∧ Z.of_nat (wall_index da)
      = (if decide (col ca - col cb ≠ 0) then 2 + (col ca - col cb)
         else 1 - (row ca - row cb))
    ∧ Z.of_nat (wall_index db)
      = (if decide (col ca - col cb ≠ 0) then 2 - (col ca - col cb)
         else 1 + (row ca - row cb))
    ∧ remove_wall_between_cell a (VCell b) h
      = (inr tt, clear_wall (walls cb) (wall_index db)
                   (clear_wall (walls ca) (wall_index da) h)).
Proof.
  intros Hab Ha Hb Hc Hadj.
  destruct (remove_wall_between_cell_ok h a b ca cb wa wb)
    as (da & db & Ht & _ & _ & Hia & Hib & Hrun); try done.
  by exists da, db.
Qed.

Lemma two_cells_facts :
  (1 ≠ 2)%positive
  ∧ cell_at two_cells_heap 1 (cell_1_0 1) all_walls
  ∧ cell_at two_cells_heap 2 (cell_0_0 2) all_walls
  ∧ constructed (cell_1_0 1)
  ∧ constructed (cell_0_0 2)
  ∧ position (cell_0_0 2) ∈ neighbors (cell_1_0 1)
  ∧ position (cell_1_0 1) ∈ neighbors (cell_0_0 2).
Proof.
  split; [done |]. split; [done |]. split; [done |].
  split; [by exists 5, 5 |]. split; [by exists 5, 5 |].
  split; [left | right; left].
Defined.

Lemma cleared_walls_follow_table_witness :
  let ca := cell_1_0 1 in
  let cb := cell_0_0 2 in
  ((1 ≠ 2)%positive
   ∧ cell_at two_cells_heap 1 ca all_walls
   ∧ cell_at two_cells_heap 2 cb all_walls
   ∧ constructed ca ∧ position cb ∈ neighbors ca)
  ∧ ∃ da db,
      spec_wall_table (col ca - col cb) (row ca - row cb) = Some (da, db)
      ∧ Z.of_nat (wall_index da)
        = (if decide (col ca - col cb ≠ 0) then 2 + (col ca - col cb)
           else 1 - (row ca - row cb))
      ∧ Z.of_nat (wall_index db)
        = (if decide (col ca - col cb ≠ 0) then 2 - (col ca - col cb)
           else 1 + (row ca - row cb))
      ∧ remove_wall_between_cell 1 (VCell 2) two_cells_heap
        = (inr tt, clear_wall (walls cb) (wall_index db)
                     (clear_wall (walls ca) (wall_index da) two_cells_heap)).
Proof.
  destruct two_cells_facts as (Hab & Ha & Hb & Hca & _ & Hadj & _).
  split; [done |].
  by apply (cleared_walls_follow_table two_cells_heap 1 2 _ _
              all_walls all_walls).
Defined.

(** C1, as the specification has it, fails: two cells that were given
    one list by [set_walls] share their walls, and the call clears on
    each of them the wall that faces the other and a second wall as
    well.  Here cell (1, 0) loses its South wall with its North wall. *)
Lemma shared_walls_lose_two :
  (1 ≠ 2)%positive
  ∧ cell_at shared_walls_heap 1 (cell_1_0 3) all_walls
  ∧ cell_at shared_walls_heap 2 (cell_0_0 3) all_walls
  ∧ constructed (cell_1_0 3)
  ∧ position (cell_0_0 3) ∈ neighbors (cell_1_0 3)
  ∧ ¬ clears_only_facing_walls shared_walls_heap 1 2.
Proof.
  split; [done |]. split; [done |]. split; [done |].
  split; [by exists 5, 5 |]. split; [left |].
  intros (ca & cb & wa & wb & i & j & h' & wa' & wb'
          & Ha & Hb & Hwa & Hwb & Hi & Hj & Hrun & Hwa' & Hwb'
          & [_ Hother] & _).
  vm_compute in Ha. injection Ha as <-.
  vm_compute in Hb. injection Hb as <-.
  vm_compute in Hwa. injection Hwa as <-.
  vm_compute in Hi. injection Hi as <-.
  vm_compute in Hrun. injection Hrun as <-.
  vm_compute in Hwa'. injection Hwa' as <-.
  specialize (Hother 2%nat ltac:(done)). discriminate.
Qed.

Example shared_walls_after :
  walls_of shared_walls_heap 1 = Some (bools [true; true; true; true])
  ∧ facing (cell_1_0 3) (position (cell_0_0 3)) = Some 0%nat
  ∧ walls_of (remove_wall_between_cell 1 (VCell 2) shared_walls_heap).2 1
    = Some (bools [false; true; false; true]).
Proof. repeat split. Qed.

(** C1, amended.  For two distinct cells with wall lists of their own,
    the second among the neighbors of the first, the call clears the
    wall of each that faces the other and changes no other wall of
    either. *)
Theorem clears_facing_walls h a b ca cb wa wb :
  a ≠ b → cell_at h a ca wa → cell_at h b cb wb →
  constructed ca → position cb ∈ neighbors ca →
  walls ca ≠ walls cb →
  clears_only_facing_walls h a b.
Proof.
  intros Hab Ha Hb Hc Hadj Hw.
  destruct (remove_wall_between_cell_ok h a b ca cb wa wb)
    as (da & db & _ & Hfa & Hfb & _ & _ & Hrun); try done.
  destruct Ha as (Ha & Hwa & Hla), Hb as (Hb & Hwb & Hlb).
  assert (Hda : (wall_index da < 4)%nat) by (destruct da; simpl; lia).
  assert (Hdb : (wall_index db < 4)%nat) by (destruct db; simpl; lia).
  exists ca, cb, wa, wb, (wall_index da), (wall_index db). eexists _, _, _.
  split; [done |]. split; [done |].
  split; [by unfold walls_of; rewrite Ha; simpl |].
  split; [by unfold walls_of; rewrite Hb; simpl |].
  split; [done |]. split; [done |]. split; [exact Hrun |].
  split.
  { rewrite (walls_of_clear_wall _ _ ca), (walls_of_clear_wall _ _ ca)
      by done.
    rewrite decide_False, decide_True by done.
    unfold walls_of. rewrite Ha. simpl. rewrite Hwa. reflexivity. }
  split.
  { rewrite (walls_of_clear_wall _ _ cb), (walls_of_clear_wall _ _ cb)
      by done.
    rewrite decide_True, decide_False by done.
    unfold walls_of. rewrite Hb. simpl. rewrite Hwb. reflexivity. }
  simpl. split; (split;
    [apply list_lookup_insert_eq; lia
    | by intros k Hk; apply list_lookup_insert_ne]).
Qed.

Lemma clears_facing_walls_witness :
  ((1 ≠ 2)%positive
   ∧ cell_at two_cells_heap 1 (cell_1_0 1) all_walls
   ∧ cell_at two_cells_heap 2 (cell_0_0 2) all_walls
   ∧ constructed (cell_1_0 1)
   ∧ position (cell_0_0 2) ∈ neighbors (cell_1_0 1)
   ∧ walls (cell_1_0 1) ≠ walls (cell_0_0 2))
  ∧ clears_only_facing_walls two_cells_heap 1 2.
Proof.
  destruct two_cells_facts as (Hab & Ha & Hb & Hca & _ & Hadj & _).
  split; [done |].
  by apply (clears_facing_walls two_cells_heap 1 2 (cell_1_0 1) (cell_0_0 2)
              all_walls all_walls).
Defined.

(** C9, as the specification has it, fails: the assertion of the
    method reads the neighbor list of [self] only.  The cell (0, 0) is
    in the neighbor list of the cell constructed at (-1, 0), and not the
    other way round: the call from the first returns and removes two
    walls, the call from the second raises and removes none. *)
Lemma one_sided_call_differs :
  (1 ≠ 2)%positive
  ∧ cell_at above_the_maze_heap 1 (cell_above 1) all_walls
  ∧ cell_at above_the_maze_heap 2 (cell_0_0 2) all_walls
  ∧ constructed (cell_above 1)
  ∧ position (cell_0_0 2) ∈ neighbors (cell_above 1)
  ∧ (∃ h', remove_wall_between_cell 1 (VCell 2) above_the_maze_heap
           = (inr tt, h'))
  ∧ remove_wall_between_cell 2 (VCell 1) above_the_maze_heap
    = (inl (AssertionError "The two cells are not neighbors"),
       above_the_maze_heap)
  ∧ ¬ same_walls_both_ways above_the_maze_heap 1 2.
Proof.
  split; [done |]. split; [done |]. split; [done |].
  split; [by exists 5, 5 |]. split; [left |].
  split; [eexists; vm_compute; reflexivity |].
  split; [vm_compute; reflexivity |].
  intros [H _]. vm_compute in H. discriminate.
Qed.

(** C9, amended.  For two distinct cells, each among the neighbors of
    the other, [a.remove_wall_between_cell(b)] and
    [b.remove_wall_between_cell(a)] both return and leave the same
    store, and so the same walls on both cells. *)
Theorem remove_wall_between_cell_symmetric h a b ca cb wa wb :
  a ≠ b → cell_at h a ca wa → cell_at h b cb wb →
  constructed ca → constructed cb →
  position cb ∈ neighbors ca → position ca ∈ neighbors cb →
  (∃ h', remove_wall_between_cell a (VCell b) h = (inr tt, h')
         ∧ remove_wall_between_cell b (VCell a) h = (inr tt, h'))
  ∧ same_walls_both_ways h a b.
Proof.
  intros Hab Ha Hb Hca Hcb Hadj Hadj'.
  destruct (remove_wall_between_cell_ok h a b ca cb wa wb)
    as (da & db & _ & Hfa & Hfb & _ & _ & Hrun); try done.
  destruct (remove_wall_between_cell_ok h b a cb ca wb wa)
    as (db' & da' & _ & Hfb' & Hfa' & _ & _ & Hrun'); try done.
  rewrite Hfb in Hfb'. rewrite Hfa in Hfa'.
  injection Hfb' as Hb'. injection Hfa' as Ha'.
  assert (Hsame : remove_wall_between_cell b (VCell a) h
                  = remove_wall_between_cell a (VCell b) h).
  { rewrite Hrun, Hrun', <- Ha', <- Hb'. f_equal. apply clear_wall_comm. }
  split.
  - eexists. split; [exact Hrun |]. by rewrite Hsame.
  - unfold same_walls_both_ways. by rewrite Hsame.
Qed.

Lemma remove_wall_between_cell_symmetric_witness :
  ((1 ≠ 2)%positive
   ∧ cell_at two_cells_heap 1 (cell_1_0 1) all_walls
   ∧ cell_at two_cells_heap 2 (cell_0_0 2) all_walls
   ∧ constructed (cell_1_0 1) ∧ constructed (cell_0_0 2)
   ∧ position (cell_0_0 2) ∈ neighbors (cell_1_0 1)
   ∧ position (cell_1_0 1) ∈ neighbors (cell_0_0 2))
  ∧ (∃ h', remove_wall_between_cell 1 (VCell 2) two_cells_heap = (inr tt, h')
           ∧ remove_wall_between_cell 2 (VCell 1) two_cells_heap = (inr tt, h'))
  ∧ same_walls_both_ways two_cells_heap 1 2.
Proof.
  destruct two_cells_facts as (Hab & Ha & Hb & Hca & Hcb & Hadj & Hadj').
  split; [done |].
  by apply (remove_wall_between_cell_symmetric two_cells_heap 1 2
              (cell_1_0 1) (cell_0_0 2) all_walls all_walls).
Defined.

(** The neighbor list of a cell is its own: a cell of another maze may
    be among the neighbors of the first and not have the first among
    its own, and then only one of the two calls is accepted. *)
Example one_sided_neighbors :
  let h := (run (a <- Cell_init 0 1 5 5 ;; Cell_init 0 0 1 1)).2 in
  ∃ h', remove_wall_between_cell 1 (VCell 2) h = (inr tt, h')
        ∧ remove_wall_between_cell 2 (VCell 1) h
          = (inl (AssertionError "The two cells are not neighbors"), h).
Proof. eexists. split; vm_compute; reflexivity. Qed.

(** ** [get_accessible_neighbors] *)

(** The membership test of the loop is the bounds test of [__init__]. *)
Lemma direction_in_neighbors c w ht y x :
  neighbors c = init_neighbors (row c) (col c) w ht →
  (y, x) ∈ directions →
  bool_decide ((row c + y, col c + x) ∈ neighbors c)
  = bool_decide ((0 ≤ col c + x < w) ∧ (0 ≤ row c + y < ht)).
Proof.
  intros -> Hd. apply bool_decide_ext. rewrite elem_of_init_neighbors. split.
  - intros (y' & x' & _ & [= Hy Hx] & Hb).
    assert (y' = y) as -> by lia. assert (x' = x) as -> by lia. done.
  - intros Hb. by exists y, x.
Qed.

Lemma facing_offset c y x :
  facing c (row c + y, col c + x)
  = fst <$> list_find (λ d, d = (y, x)) directions.
Proof.
  unfold facing. simpl.
  by replace (row c + y - row c) with y by lia;
     replace (col c + x - col c) with x by lia.
Qed.

(** One turn of the loop, on a cell with four boolean walls. *)
Lemma accessible_loop_step h a c w ht bs y x dirs i acc b :
  cells h !! a = Some c →
  neighbors c = init_neighbors (row c) (col c) w ht →
  lists h !! walls c = Some (bools bs) → length bs = 4%nat →
  (y, x) ∈ directions →
  0 ≤ i < 4 → bs !! Z.to_nat i = Some b →
  accessible_loop a ((y, x) :: dirs) i acc h
  = accessible_loop a dirs (i + 1)
      (acc ++
       if bool_decide ((0 ≤ col c + x < w) ∧ (0 ≤ row c + y < ht)) && negb b
       then [(row c + y, col c + x)] else []) h.
Proof.
  intros Ha Hnb Hw Hlen Hd Hi Hb. simpl.
  rewrite (bind_ok _ _ _ _ _ (get_cell_ok _ _ _ Ha)).
  rewrite (direction_in_neighbors c w ht) by done.
  destruct (bool_decide _); simpl; [| by rewrite app_nil_r].
  assert (Hget : list_getitem (walls c) i h = (inr (VBool b), h)).
  { unfold list_getitem.
    rewrite (bind_ok _ _ _ _ _ (get_list_ok _ _ _ Hw)).
    unfold bools at 1. rewrite length_fmap, Hlen.
    rewrite (norm_index_nonneg 4) by done.
    unfold bools. by rewrite list_lookup_fmap, Hb. }
  unfold bind at 1 2. rewrite Hget. unfold bind, py_not. simpl.
  destruct b; simpl; [by rewrite app_nil_r | done].
Qed.

(** The neighbors kept for one direction, at wall index [i]. *)
Lemma open_neighbors_of_direction c w ht bs y x i b :
  fst <$> list_find (λ d, d = (y, x)) directions = Some i →
  bs !! i = Some b →
  filter (λ p, wall_removed c (bools bs) p)
    ((λ '(y, x), (row c + y, col c + x)) <$>
     filter (λ '(y, x), (0 ≤ col c + x < w) ∧ (0 ≤ row c + y < ht))
       [(y, x)])
  = if bool_decide ((0 ≤ col c + x < w) ∧ (0 ≤ row c + y < ht)) && negb b
    then [(row c + y, col c + x)] else [].
Proof.
  intros Hf Hb.
  destruct (decide ((0 ≤ col c + x < w) ∧ (0 ≤ row c + y < ht))) as [Hin | Hout].
  - rewrite filter_cons_True by done. rewrite bool_decide_eq_true_2 by done.
    simpl. rewrite filter_cons, filter_nil.
    unfold wall_removed. rewrite facing_offset, Hf.
    unfold bools. rewrite list_lookup_fmap, Hb. simpl. by destruct b.
  - rewrite filter_cons_False by done. by rewrite bool_decide_eq_false_2.
Qed.

(** C5.  On a cell with four boolean walls, [get_accessible_neighbors]
    returns the neighbors whose wall is [False], in the order of the
    neighbor list, which is the order North, East, South, West of
    [__init__]: a sublist of [get_neighbors]. *)
Theorem accessible_neighbors_are_open_neighbors h a c bs :
  cells h !! a = Some c → constructed c →
  lists h !! walls c = Some (bools bs) → length bs = 4%nat →
  ∃ nb acc,
    get_neighbors a h = (inr nb, h)
    ∧ get_accessible_neighbors a h = (inr acc, h)
    ∧ acc = filter (λ p, wall_removed c (bools bs) p) nb
    ∧ sublist acc nb.
Proof.
  intros Ha (w & ht & Hnb) Hw Hlen.
  exists (neighbors c). eexists.
  split; [by apply get_neighbors_ok |].
  split; [| split; [reflexivity | apply sublist_filter]].
  destruct bs as [| b0 [| b1 [| b2 [| b3 [|]]]]]; try discriminate.
  unfold get_accessible_neighbors, directions.
  rewrite (accessible_loop_step h a c w ht [b0; b1; b2; b3] _ _ _ 0 _ b0)
    by (done || lia || (unfold directions; set_solver)).
  rewrite (accessible_loop_step h a c w ht [b0; b1; b2; b3] _ _ _ (0 + 1) _ b1)
    by (done || lia || (unfold directions; set_solver)).
  rewrite (accessible_loop_step h a c w ht [b0; b1; b2; b3] _ _ _ (0 + 1 + 1) _ b2)
    by (done || lia || (unfold directions; set_solver)).
  rewrite (accessible_loop_step h a c w ht [b0; b1; b2; b3] _ _ _ (0 + 1 + 1 + 1) _ b3)
    by (done || lia || (unfold directions; set_solver)).
  simpl accessible_loop. unfold ret. f_equal. f_equal.
  rewrite Hnb. unfold init_neighbors, directions.
  change [(-1, 0); (0, 1); (1, 0); (0, -1)]
    with ([(-1, 0)] ++ [(0, 1)] ++ [(1, 0)] ++ [(0, -1)]).
  rewrite !filter_app, !fmap_app, !filter_app.
  rewrite (open_neighbors_of_direction c w ht _ _ _ 0%nat b0) by done.
  rewrite (open_neighbors_of_direction c w ht _ _ _ 1%nat b1) by done.
  rewrite (open_neighbors_of_direction c w ht _ _ _ 2%nat b2) by done.
  rewrite (open_neighbors_of_direction c w ht _ _ _ 3%nat b3) by done.
  by rewrite <- !app_assoc.
Qed.

Lemma accessible_neighbors_are_open_neighbors_witness :
  let h := (run (c <- Cell_init 1 3 5 5 ;;
                 l <- new_list (bools [true; false; true; false]) ;;
                 set_walls c l)).2 in
  let c := mkCell 1 3 [(0, 3); (1, 4); (2, 3); (1, 2)] false 2 in
  (cells h !! 1%positive = Some c ∧ constructed c
   ∧ lists h !! walls c = Some (bools [true; false; true; false])
   ∧ length [true; false; true; false] = 4%nat)
  ∧ ∃ nb acc,
      get_neighbors 1 h = (inr nb, h)
      ∧ get_accessible_neighbors 1 h = (inr acc, h)
      ∧ acc = filter (λ p, wall_removed c (bools [true; false; true; false]) p) nb
      ∧ sublist acc nb.
Proof.
  split; [split; [done |]; split; [by exists 5, 5 |]; done |].
  apply accessible_neighbors_are_open_neighbors;
    [done | by exists 5, 5 | done | done].
Defined.

(** ** What no method changes *)

Lemma same_geometry_refl h : same_geometry h h.
Proof. intros a c Ha. by exists c. Qed.

Lemma same_geometry_trans h1 h2 h3 :
  same_geometry h1 h2 → same_geometry h2 h3 → same_geometry h1 h3.
Proof.
  intros H12 H23 a c Ha.
  destruct (H12 a c Ha) as (c2 & Ha2 & ? & ? & ?).
  destruct (H23 a c2 Ha2) as (c3 & Ha3 & ? & ? & ?).
  exists c3. repeat split; congruence.
Qed.

Lemma same_geometry_cells h h' : cells h' = cells h → same_geometry h h'.
Proof. intros E a c Ha. exists c. by rewrite E. Qed.

Lemma keeps_ret {A} (x : A) : keeps_geometry (ret x).
Proof. intros h. apply same_geometry_refl. Qed.

Lemma keeps_raise {A} e : keeps_geometry (@raise A e).
Proof. intros h. apply same_geometry_refl. Qed.

Lemma keeps_bind {A B} (m : M A) (k : A → M B) :
  keeps_geometry m → (∀ x, keeps_geometry (k x)) → keeps_geometry (bind m k).
Proof.
  intros Hm Hk h. unfold bind. specialize (Hm h).
  destruct (m h) as [[e | x] h1]; [done |].
  eapply same_geometry_trans; [exact Hm | apply Hk].
Qed.

Lemma keeps_assert b msg : keeps_geometry (assert b msg).
Proof. destruct b; [apply keeps_ret | apply keeps_raise]. Qed.

Lemma keeps_get_cell a : keeps_geometry (get_cell a).
Proof.
  intros h. unfold get_cell.
  destruct (cells h !! a); apply same_geometry_refl.
Qed.

Lemma keeps_get_list l : keeps_geometry (get_list l).
Proof.
  intros h. unfold get_list.
  destruct (lists h !! l); apply same_geometry_refl.
Qed.

Lemma keeps_put_list l xs : keeps_geometry (put_list l xs).
Proof. intros h. by apply same_geometry_cells. Qed.

Lemma keeps_new_list xs : keeps_geometry (new_list xs).
Proof. intros h. by apply same_geometry_cells. Qed.

Lemma keeps_new_cell c : keeps_geometry (new_cell c).
Proof.
  intros h a' c' Ha'. exists c'. split; [| done]. simpl.
  rewrite lookup_insert_ne; [done |].
  intros <-. by rewrite fresh_cell in Ha'.
Qed.

Lemma keeps_py_not v : keeps_geometry (py_not v).
Proof. intros h. apply same_geometry_refl. Qed.

(** Writing back a cell read from the store, with another flag or
    another wall list. *)
Lemma keeps_update a (f : Cell → Cell) :
  (∀ c, row (f c) = row c ∧ col (f c) = col c ∧ neighbors (f c) = neighbors c) →
  keeps_geometry (c <- get_cell a ;; put_cell a (f c)).
Proof.
  intros Hf h. unfold bind, get_cell, put_cell.
  destruct (cells h !! a) as [c |] eqn:Ha; [| apply same_geometry_refl].
  intros a' c' Ha'. simpl. destruct (decide (a = a')) as [<- | Hne].
  - exists (f c). rewrite lookup_insert_eq. split; [done |].
    assert (c' = c) as -> by congruence. apply Hf.
  - exists c'. by rewrite lookup_insert_ne.
Qed.

Create HintDb geometry.
#[local] Hint Resolve keeps_ret keeps_raise keeps_assert keeps_get_cell
  keeps_get_list keeps_put_list keeps_new_list keeps_new_cell keeps_py_not
  : geometry.

Ltac keeps :=
  repeat first
    [ apply keeps_bind; [| intros ?]
    | progress eauto with geometry
    | match goal with
      | |- keeps_geometry (match ?x with _ => _ end) => destruct x
      | |- keeps_geometry (if ?b then _ else _) => destruct b
      end ].

Lemma keeps_list_getitem l i : keeps_geometry (list_getitem l i).
Proof. unfold list_getitem. keeps. Qed.

Lemma keeps_list_setitem l i v : keeps_geometry (list_setitem l i v).
Proof. unfold list_setitem. keeps. Qed.

Lemma keeps_remove_wall a i : keeps_geometry (remove_wall a i).
Proof. unfold remove_wall, list_setitem. keeps. Qed.

Lemma keeps_make_visited a : keeps_geometry (make_visited a).
Proof. by apply keeps_update. Qed.

Lemma keeps_make_unvisited a : keeps_geometry (make_unvisited a).
Proof. by apply keeps_update. Qed.

Lemma keeps_set_walls a l : keeps_geometry (set_walls a l).
Proof.
  unfold set_walls. do 4 (apply keeps_bind; [keeps | intros ?]).
  by apply (keeps_update a (set_walls_ref l)).
Qed.

Lemma keeps_get_row a : keeps_geometry (get_row a).
Proof. unfold get_row. keeps. Qed.

Lemma keeps_get_column a : keeps_geometry (get_column a).
Proof. unfold get_column. keeps. Qed.

Lemma keeps_accessible_loop a dirs :
  ∀ i acc, keeps_geometry (accessible_loop a dirs i acc).
Proof.
  induction dirs as [| [y x] dirs IH]; intros i acc; simpl; [keeps |].
  apply keeps_bind; [keeps | intros c].
  apply keeps_bind; [| intros ?; apply IH].
  destruct (bool_decide _); [| keeps].
  apply keeps_bind; [apply keeps_list_getitem | intros ?]. keeps.
Qed.

Lemma keeps_remove_wall_between_cell a v :
  keeps_geometry (remove_wall_between_cell a v).
Proof.
  unfold remove_wall_between_cell. destruct (as_Cell v) as [b |]; [| keeps].
  apply keeps_bind; [keeps | intros _].
  apply keeps_bind; [apply keeps_get_row | intros r].
  apply keeps_bind; [apply keeps_get_column | intros k].
  apply keeps_bind; [keeps | intros c].
  apply keeps_bind; [keeps | intros _].
  apply keeps_bind; [keeps | intros c'].
  apply keeps_bind; [apply keeps_get_column | intros k'].
  apply keeps_bind; [apply keeps_get_row | intros r'].
  destruct (negb _); apply keeps_bind;
    (apply keeps_remove_wall || (intros; apply keeps_remove_wall)).
Qed.

Lemma keeps_Cell_init r k w ht : keeps_geometry (Cell_init r k w ht).
Proof. unfold Cell_init. keeps. Qed.

Lemma exec_same_geometry c h : same_geometry h (exec c h).
Proof.
  destruct c; simpl.
  - apply keeps_Cell_init.
  - apply keeps_new_list.
  - apply keeps_make_visited.
  - apply keeps_make_unvisited.
  - apply keeps_get_column.
  - apply keeps_get_row.
  - unfold is_visited. by keeps.
  - unfold get_neighbors. by keeps.
  - apply keeps_accessible_loop.
  - unfold Cell_repr, Cell_str. by keeps.
  - unfold Cell_str. by keeps.
  - apply keeps_set_walls.
  - apply keeps_remove_wall.
  - unfold get_walls. by keeps.
  - apply keeps_remove_wall_between_cell.
Qed.

Lemma exec_all_same_geometry cs : ∀ h, same_geometry h (exec_all cs h).
Proof.
  induction cs as [| c cs IH]; intros h; [apply same_geometry_refl |].
  eapply same_geometry_trans; [apply exec_same_geometry | apply IH].
Qed.

(** C8.  Whatever calls of the interface follow the construction of a
    cell, on this cell or on others, returning or raising, the cell
    keeps the row, the column and the neighbor list that [__init__]
    gave it; and every single call keeps those of every cell. *)
Theorem geometry_is_immutable r k w ht h0 cs :
  (∀ c h, same_geometry h (exec c h))
  ∧ ∃ a h1 c,
      Cell_init r k w ht h0 = (inr a, h1)
      ∧ cells (exec_all cs h1) !! a = Some c
      ∧ row c = r ∧ col c = k
      ∧ neighbors c = init_neighbors r k w ht.
Proof.
  split; [apply exec_same_geometry |].
  eexists _, _. rewrite Cell_init_ok.
  edestruct (exec_all_same_geometry cs) as (c & Hc & Hr & Hk & Hn);
    [| exists c; split; [reflexivity |]; split; [exact Hc |]].
  - simpl. apply lookup_insert_eq.
  - done.
Qed.

(** ** The state the interface maintains *)

Lemma ok_ret {A} (x : A) : keeps_ok (ret x).
Proof. by intros h. Qed.

Lemma ok_raise {A} e : keeps_ok (@raise A e).
Proof. by intros h. Qed.

Lemma ok_bind {A B} (m : M A) (k : A → M B) :
  keeps_ok m → (∀ x, keeps_ok (k x)) → keeps_ok (bind m k).
Proof.
  intros Hm Hk h Hh. unfold bind. specialize (Hm h Hh).
  destruct (m h) as [[e | x] h1]; [done |]. by apply Hk.
Qed.

Lemma ok_assert b msg : keeps_ok (assert b msg).
Proof. destruct b; [apply ok_ret | apply ok_raise]. Qed.

Lemma ok_get_cell a : keeps_ok (get_cell a).
Proof. intros h Hh. unfold get_cell. by destruct (cells h !! a). Qed.

Lemma ok_get_list l : keeps_ok (get_list l).
Proof. intros h Hh. unfold get_list. by destruct (lists h !! l). Qed.

Lemma ok_py_not v : keeps_ok (py_not v).
Proof. by intros h. Qed.

Lemma ok_new_list xs : keeps_ok (new_list xs).
Proof.
  intros h Hh a c Ha. destruct (Hh a c Ha) as (Hc & bs & Hw & Hlen).
  split; [done |]. exists bs. split; [| done]. simpl.
  rewrite lookup_insert_ne; [done |].
  intros E. by rewrite <- E, fresh_list in Hw.
Qed.

Lemma ok_Cell_init r k w ht : keeps_ok (Cell_init r k w ht).
Proof.
  intros h Hh a c. rewrite Cell_init_ok. simpl.
  destruct (decide (fresh (dom (cells h)) = a)) as [<- | Hne].
  - rewrite lookup_insert_eq. intros [= <-]. simpl.
    split; [by exists w, ht |].
    exists [true; true; true; true]. by rewrite lookup_insert_eq.
  - rewrite lookup_insert_ne by done. intros Ha.
    destruct (Hh a c Ha) as (Hc & bs & Hw & Hlen).
    split; [done |]. exists bs. split; [| done].
    rewrite lookup_insert_ne; [done |].
    intros E. by rewrite <- E, fresh_list in Hw.
Qed.

Lemma ok_set_visited a b :
  keeps_ok (c <- get_cell a ;; put_cell a (set_visited b c)).
Proof.
  intros h Hh. unfold bind, get_cell, put_cell.
  destruct (cells h !! a) as [c |] eqn:Ha; [| done].
  intros a' c'. simpl. destruct (decide (a = a')) as [<- | Hne].
  - rewrite lookup_insert_eq. intros [= <-]. apply (Hh a c Ha).
  - rewrite lookup_insert_ne by done. apply Hh.
Qed.

Lemma all_bools xs :
  forallb isinstance_bool xs = true → ∃ bs, xs = bools bs.
Proof.
  induction xs as [| x xs IH]; simpl; [by exists [] |].
  destruct x as [b | | | |]; try done. intros (bs & ->)%IH.
  by exists (b :: bs).
Qed.

Lemma ok_set_walls a l : keeps_ok (set_walls a l).
Proof.
  intros h Hh. unfold set_walls, bind, get_list, get_cell, put_cell.
  destruct (lists h !! l) as [xs |] eqn:Hl; [| done].
  destruct (Z.eqb_spec (Z.of_nat (length xs)) 4) as [Hlen | _]; [| done].
  simpl. rewrite Hl.
  destruct (forallb isinstance_bool xs) eqn:Hb; [| done]. simpl.
  destruct (cells h !! a) as [c |] eqn:Ha; [| done].
  apply all_bools in Hb as (bs & ->).
  intros a' c'. simpl. destruct (decide (a = a')) as [<- | Hne].
  - rewrite lookup_insert_eq. intros [= <-]. simpl.
    split; [apply (Hh a c Ha) |]. exists bs. split; [done |].
    unfold bools in Hlen. rewrite length_fmap in Hlen. lia.
  - rewrite lookup_insert_ne by done. apply Hh.
Qed.

Lemma heap_ok_clear_wall w n h : heap_ok h → heap_ok (clear_wall w n h).
Proof.
  intros Hh a c Ha. destruct (Hh a c Ha) as (Hc & bs & Hw & Hlen).
  split; [done |]. unfold clear_wall. simpl. rewrite lookup_alter.
  destruct (decide (w = walls c)) as [-> |]; [| by exists bs].
  exists (<[n := false]> bs). rewrite Hw. simpl.
  split; [| by rewrite length_insert].
  unfold bools. by rewrite list_fmap_insert.
Qed.

Lemma ok_remove_wall a i : keeps_ok (remove_wall a i).
Proof.
  intros h Hh. destruct (cells h !! a) as [c |] eqn:Ha.
  - destruct (Hh a c Ha) as (_ & bs & Hw & _).
    destruct (norm_index (Z.of_nat (length (bools bs))) i) as [n |] eqn:Hn.
    + rewrite (remove_wall_ok _ _ c (bools bs) _ n) by done.
      by apply heap_ok_clear_wall.
    + by rewrite (remove_wall_out _ _ c (bools bs)).
  - unfold remove_wall, bind, get_cell. by rewrite Ha.
Qed.

Create HintDb ok.
#[local] Hint Resolve ok_ret ok_raise ok_assert ok_get_cell ok_get_list
  ok_py_not ok_new_list ok_remove_wall : ok.

Ltac keeps_ok :=
  repeat first
    [ progress eauto with ok
    | apply ok_bind; [| intros ?]
    | match goal with
      | |- keeps_ok (match ?x with _ => _ end) => destruct x
      | |- keeps_ok (if ?b then _ else _) => destruct b
      end ].

Lemma ok_accessible_loop a dirs :
  ∀ i acc, keeps_ok (accessible_loop a dirs i acc).
Proof.
  induction dirs as [| [y x] dirs IH]; intros i acc; simpl; [keeps_ok |].
  apply ok_bind; [keeps_ok | intros c].
  apply ok_bind; [| intros ?; apply IH].
  destruct (bool_decide _); [| keeps_ok].
  unfold list_getitem. keeps_ok.
Qed.

Lemma ok_remove_wall_between_cell a v :
  keeps_ok (remove_wall_between_cell a v).
Proof.
  unfold remove_wall_between_cell, get_row, get_column.
  destruct (as_Cell v) as [b |]; keeps_ok.
Qed.

Lemma exec_heap_ok c h : heap_ok h → heap_ok (exec c h).
Proof.
  destruct c; simpl.
  - apply ok_Cell_init.
  - apply ok_new_list.
  - apply ok_set_visited.
  - apply ok_set_visited.
  - unfold get_column. by keeps_ok.
  - unfold get_row. by keeps_ok.
  - unfold is_visited. by keeps_ok.
  - unfold get_neighbors. by keeps_ok.
  - apply ok_accessible_loop.
  - unfold Cell_repr, Cell_str. by keeps_ok.
  - unfold Cell_str. by keeps_ok.
  - apply ok_set_walls.
  - apply ok_remove_wall.
  - unfold get_walls. by keeps_ok.
  - apply ok_remove_wall_between_cell.
Qed.

(** Every store reached from the empty one by calls of the interface is
    in that state: its cells are the cells the theorems above are
    about. *)
Lemma reachable_heap_ok cs : heap_ok (exec_all cs empty_heap).
Proof.
  assert (H : ∀ h, heap_ok h → heap_ok (exec_all cs h)).
  { induction cs as [| c cs IH]; intros h Hh; [done |].
    apply IH. by apply exec_heap_ok. }
  apply H. intros a c Ha. simpl in Ha. by rewrite lookup_empty in Ha.
Qed.

Lemma heap_ok_cell_at h a c :
  heap_ok h → cells h !! a = Some c →
  constructed c ∧ ∃ bs, cell_at h a c (bools bs).
Proof.
  intros Hh Ha. destruct (Hh a c Ha) as (Hc & bs & Hw & Hlen).
  split; [done |]. exists bs. repeat split; try done.
  unfold bools. by rewrite length_fmap.
Qed.

(** * Further properties of the class *)

(** ** The neighbor list *)

Lemma unit_step_direction r k p :
  unit_step (r, k) p →
  ∃ y x, (y, x) ∈ directions ∧ p = (r + y, k + x).
Proof.
  destruct p as [r' k']. unfold unit_step, directions. simpl.
  intros [[Hr ->] | [-> Hk]].
  - destruct (decide (r' - r = 1)).
    + exists 1, 0. split; [set_solver |]. f_equal; lia.
    + exists (-1), 0. split; [set_solver |]. f_equal; lia.
  - destruct (decide (k' - k = 1)).
    + exists 0, 1. split; [set_solver |]. f_equal; lia.
    + exists 0, (-1). split; [set_solver |]. f_equal; lia.
Qed.

Lemma elem_of_init_neighbors_iff r k w ht p :
  p ∈ init_neighbors r k w ht ↔ in_bounds w ht p ∧ unit_step (r, k) p.
Proof.
  split; [apply init_neighbors_in_bounds |].
  intros ([Hr Hk] & (y & x & Hd & ->)%unit_step_direction).
  apply elem_of_init_neighbors. by exists y, x.
Qed.

Lemma NoDup_directions : NoDup directions.
Proof. by apply (bool_decide_unpack _); vm_compute. Qed.

Lemma NoDup_init_neighbors r k w ht : NoDup (init_neighbors r k w ht).
Proof.
  unfold init_neighbors. apply NoDup_fmap_2_strong.
  - intros [y x] [y' x'] _ _ [= Hy Hx]. f_equal; lia.
  - apply NoDup_filter, NoDup_directions.
Qed.

Lemma self_not_in_init_neighbors r k w ht : (r, k) ∉ init_neighbors r k w ht.
Proof.
  intros (_ & Hs)%init_neighbors_in_bounds.
  unfold unit_step in Hs. simpl in Hs. lia.
Qed.

(** X1.  Whatever its arguments, [__init__] lists as neighbors exactly
    the coordinates that are in bounds of the maze and one unit away
    from the cell along one axis, each once, and never the cell's own
    position. *)
Theorem neighbors_complete r k w ht h :
  ∃ a h' nb,
    Cell_init r k w ht h = (inr a, h')
    ∧ get_neighbors a h' = (inr nb, h')
    ∧ (∀ p, p ∈ nb ↔ in_bounds w ht p ∧ unit_step (r, k) p)
    ∧ NoDup nb
    ∧ (r, k) ∉ nb.
Proof.
  eexists _, _, _. split; [apply Cell_init_ok |].
  split; [apply get_neighbors_ok; simpl; apply lookup_insert_eq |]. simpl.
  split; [apply elem_of_init_neighbors_iff |].
  split; [apply NoDup_init_neighbors | apply self_not_in_init_neighbors].
Qed.

Lemma init_neighbors_interior r k w ht :
  0 < r < ht - 1 → 0 < k < w - 1 →
  init_neighbors r k w ht = [(r - 1, k); (r, k + 1); (r + 1, k); (r, k - 1)].
Proof.
  intros Hr Hk. unfold init_neighbors, directions.
  rewrite !filter_cons_True, filter_nil by lia. simpl.
  repeat f_equal; lia.
Qed.

(** X2.  A cell that has a cell of the maze on each of its four sides
    lists them in the order North, East, South, West. *)
Theorem interior_neighbors_in_order r k w ht h :
  0 < r < ht - 1 → 0 < k < w - 1 →
  ∃ a h',
    Cell_init r k w ht h = (inr a, h')
    ∧ get_neighbors a h'
      = (inr [(r - 1, k); (r, k + 1); (r + 1, k); (r, k - 1)], h').
Proof.
  intros Hr Hk. eexists _, _. split; [apply Cell_init_ok |].
  erewrite get_neighbors_ok by (simpl; apply lookup_insert_eq). simpl.
  by rewrite init_neighbors_interior.
Qed.

Lemma interior_neighbors_in_order_witness :
  (0 < 1 < 5 - 1 ∧ 0 < 3 < 5 - 1)
  ∧ ∃ a h',
      Cell_init 1 3 5 5 empty_heap = (inr a, h')
      ∧ get_neighbors a h'
        = (inr [(1 - 1, 3); (1, 3 + 1); (1 + 1, 3); (1, 3 - 1)], h').
Proof.
  split; [lia |]. apply (interior_neighbors_in_order 1 3 5 5 empty_heap); lia.
Defined.

Lemma init_neighbors_sym w ht ca cb :
  neighbors ca = init_neighbors (row ca) (col ca) w ht →
  neighbors cb = init_neighbors (row cb) (col cb) w ht →
  in_bounds w ht (position ca) →
  position cb ∈ neighbors ca → position ca ∈ neighbors cb.
Proof.
  intros -> -> Hin. rewrite !elem_of_init_neighbors_iff.
  intros (_ & Hs). split; [done |].
  unfold unit_step, position in *. simpl in *. lia.
Qed.

(** X3.  Among cells of one maze, being a neighbor is mutual: a cell in
    bounds is in the neighbor list of each of its own neighbors. *)
Theorem neighbors_mutual w ht ca cb :
  neighbors ca = init_neighbors (row ca) (col ca) w ht →
  neighbors cb = init_neighbors (row cb) (col cb) w ht →
  in_bounds w ht (position ca) →
  position cb ∈ neighbors ca → position ca ∈ neighbors cb.
Proof. apply init_neighbors_sym. Qed.

Lemma neighbors_mutual_witness :
  (neighbors (cell_1_0 1) = init_neighbors 1 0 5 5
   ∧ neighbors (cell_0_0 2) = init_neighbors 0 0 5 5
   ∧ in_bounds 5 5 (position (cell_1_0 1))
   ∧ position (cell_0_0 2) ∈ neighbors (cell_1_0 1))
  ∧ position (cell_1_0 1) ∈ neighbors (cell_0_0 2).
Proof.
  assert (H : in_bounds 5 5 (position (cell_1_0 1)))
    by (unfold in_bounds; simpl; lia).
  assert (H' : position (cell_0_0 2) ∈ neighbors (cell_1_0 1)) by left.
  split; [done |].
  by apply (neighbors_mutual 5 5 (cell_1_0 1) (cell_0_0 2)).
Defined.

(** ** The visited flag *)

Lemma set_visited_back c :
  visited c = false → set_visited false (set_visited true c) = c.
Proof. destruct c. simpl. by intros ->. Qed.

(** X4.  [make_visited] and [make_unvisited] set the flag that
    [is_visited] reads, of this cell only and without touching any
    wall; marking an unvisited cell and unmarking it gives back the
    very same store. *)
Theorem visited_flag_round_trip h a c :
  cells h !! a = Some c →
  (make_visited a ;; is_visited a) h = (inr true, (make_visited a h).2)
  ∧ (make_unvisited a ;; is_visited a) h = (inr false, (make_unvisited a h).2)
  ∧ (visited c = false → (make_visited a ;; make_unvisited a) h = (inr tt, h))
  ∧ (∀ b, b ≠ a →
       (is_visited b (make_visited a h).2).1 = (is_visited b h).1
       ∧ (is_visited b (make_unvisited a h).2).1 = (is_visited b h).1)
  ∧ (∀ b, walls_of (make_visited a h).2 b = walls_of h b
            ∧ walls_of (make_unvisited a h).2 b = walls_of h b).
Proof.
  intros Ha.
  assert (Hm : ∀ v, (c <- get_cell a ;; put_cell a (set_visited v c)) h
    = (inr tt, mkHeap (<[a := set_visited v c]> (cells h)) (lists h))).
  { intros v. by rewrite (bind_ok _ _ _ _ _ (get_cell_ok _ _ _ Ha)). }
  unfold make_visited, make_unvisited.
  split; [| split; [| split; [| split]]].
  - rewrite (bind_ok _ _ _ _ _ (Hm true)), Hm. simpl.
    by erewrite is_visited_ok by (simpl; apply lookup_insert_eq).
  - rewrite (bind_ok _ _ _ _ _ (Hm false)), Hm. simpl.
    by erewrite is_visited_ok by (simpl; apply lookup_insert_eq).
  - intros Hv. rewrite (bind_ok _ _ _ _ _ (Hm true)).
    erewrite bind_ok by (apply get_cell_ok; simpl; apply lookup_insert_eq).
    unfold put_cell. simpl. rewrite insert_insert_eq, set_visited_back by done.
    rewrite insert_id by done. by destruct h.
  - intros b Hb. rewrite !Hm. simpl.
    unfold is_visited, bind, get_cell. simpl.
    rewrite !lookup_insert_ne by done. by destruct (cells h !! b).
  - intros b. rewrite !Hm. unfold walls_of. simpl.
    destruct (decide (a = b)) as [<- | Hne].
    + by rewrite !lookup_insert_eq, Ha.
    + by rewrite !lookup_insert_ne by done.
Qed.

Lemma visited_flag_round_trip_witness :
  cells two_cells_heap !! 1%positive = Some (cell_1_0 1)
  ∧ (make_visited 1 ;; is_visited 1) two_cells_heap
    = (inr true, (make_visited 1 two_cells_heap).2)
  ∧ (make_visited 1 ;; make_unvisited 1) two_cells_heap
    = (inr tt, two_cells_heap).
Proof.
  split; [done |].
  destruct (visited_flag_round_trip two_cells_heap 1 (cell_1_0 1) eq_refl)
    as (H1 & _ & H3 & _).
  split; [exact H1 | by apply H3].
Defined.

(** ** Reads *)

Lemma read_bind {A B} (m : M A) (k : A → M B) :
  (∀ h, (m h).2 = h) → (∀ x h, (k x h).2 = h) → ∀ h, (bind m k h).2 = h.
Proof.
  intros Hm Hk h. unfold bind. specialize (Hm h).
  destruct (m h) as [[e | x] h1]; simpl in *; [done |].
  subst h1. apply Hk.
Qed.

Lemma read_get_cell a h : (get_cell a h).2 = h.
Proof. unfold get_cell. by destruct (cells h !! a). Qed.

Lemma read_list_getitem l i h : (list_getitem l i h).2 = h.
Proof.
  unfold list_getitem, bind, get_list.
  destruct (lists h !! l) as [xs |]; [| done]. simpl.
  destruct (norm_index _ _) as [n |]; [| done]. by destruct (xs !! n).
Qed.

Lemma read_accessible_loop a dirs :
  ∀ i acc h, (accessible_loop a dirs i acc h).2 = h.
Proof.
  induction dirs as [| [y x] dirs IH]; intros i acc; [done |]. simpl.
  apply read_bind; [apply read_get_cell | intros c].
  apply read_bind; [| intros ?; apply IH].
  destruct (bool_decide _); [| done].
  apply read_bind; [apply read_list_getitem | intros v].
  apply read_bind; [done | intros []; done].
Qed.

(** X5.  The reading methods, [get_accessible_neighbors] with its loop
    included, leave the store exactly as it was, whether they return or
    raise. *)
Theorem reads_change_nothing c h : is_read c = true → exec c h = h.
Proof.
  destruct c; try discriminate; intros _; simpl;
    try (apply read_bind; [apply read_get_cell | done]).
  apply read_accessible_loop.
Qed.

Lemma reads_change_nothing_witness :
  is_read (CallGetAccessibleNeighbors 1) = true
  ∧ exec (CallGetAccessibleNeighbors 1) shared_walls_heap = shared_walls_heap.
Proof.
  split; [done |].
  by apply (reads_change_nothing (CallGetAccessibleNeighbors 1)).
Defined.

(** ** [remove_wall], again *)

Lemma norm_index_mod i :
  -4 ≤ i < 4 → norm_index 4 i = Some (Z.to_nat (i `mod` 4)).
Proof.
  intros Hi. destruct (decide (0 ≤ i)).
  - rewrite norm_index_nonneg by lia. by rewrite Z.mod_small by lia.
  - rewrite norm_index_negative by lia. do 2 f_equal.
    rewrite <- (Z.mod_small (4 + i) 4) by lia.
    by rewrite <- (Z_mod_plus_full i 1 4), Z.add_comm.
Qed.

Lemma clear_wall_idem w n h : clear_wall w n (clear_wall w n h) = clear_wall w n h.
Proof.
  unfold clear_wall. simpl. f_equal. rewrite alter_alter_eq.
  apply alter_ext. intros xs _. simpl. by rewrite list_insert_insert_eq.
Qed.

Lemma remove_wall_twice h a c ws i j :
  cell_at h a c ws → -4 ≤ i < 4 → -4 ≤ j < 4 →
  (remove_wall a i ;; remove_wall a j) h
  = (inr tt, clear_wall (walls c) (Z.to_nat (j `mod` 4))
               (clear_wall (walls c) (Z.to_nat (i `mod` 4)) h)).
Proof.
  intros Ha Hi Hj.
  destruct (cell_at_clear_wall _ _ _ _ (walls c) (Z.to_nat (i `mod` 4)) Ha)
    as (ws' & Ha' & Hw' & Hl').
  destruct Ha as (Ha & Hw & Hl).
  erewrite bind_ok
    by (apply (remove_wall_ok _ _ c ws); [done | done |];
        rewrite Hl; by apply norm_index_mod).
  apply (remove_wall_ok _ _ c ws'); [done | done |].
  rewrite Hl'. by apply norm_index_mod.
Qed.

(** X6.  On a cell with its four walls and for indices in [-4, 4):
    removing a wall twice is removing it once, the order in which two
    walls are removed does not matter, and a negative index removes the
    same wall as that index plus four. *)
Theorem remove_wall_algebra h a c ws i j :
  cell_at h a c ws → -4 ≤ i < 4 → -4 ≤ j < 4 →
  (remove_wall a i ;; remove_wall a i) h = remove_wall a i h
  ∧ (remove_wall a i ;; remove_wall a j) h
    = (remove_wall a j ;; remove_wall a i) h
  ∧ (i < 0 → remove_wall a i h = remove_wall a (i + 4) h).
Proof.
  intros Ha Hi Hj. split; [| split].
  - rewrite (remove_wall_twice h a c ws i i) by done.
    rewrite clear_wall_idem. symmetry.
    apply (remove_wall_ok _ _ c ws); [apply Ha | apply Ha |].
    rewrite (proj2 (proj2 Ha)). by apply norm_index_mod.
  - rewrite (remove_wall_twice h a c ws i j), (remove_wall_twice h a c ws j i)
      by done.
    f_equal. apply clear_wall_comm.
  - intros Hneg. destruct Ha as (Ha & Hw & Hl).
    rewrite (remove_wall_ok h a c ws i (Z.to_nat (4 + i)))
      by (try done; rewrite Hl; apply norm_index_negative; lia).
    symmetry. apply (remove_wall_ok _ _ c ws); [done | done |].
    rewrite Hl, (norm_index_nonneg 4) by lia. do 2 f_equal. lia.
Qed.

Lemma remove_wall_algebra_witness :
  (cell_at two_cells_heap 1 (cell_1_0 1) all_walls ∧ -4 ≤ -1 < 4 ∧ -4 ≤ 2 < 4)
  ∧ (remove_wall 1 (-1) ;; remove_wall 1 (-1)) two_cells_heap
    = remove_wall 1 (-1) two_cells_heap
  ∧ (remove_wall 1 (-1) ;; remove_wall 1 2) two_cells_heap
    = (remove_wall 1 2 ;; remove_wall 1 (-1)) two_cells_heap
  ∧ remove_wall 1 (-1) two_cells_heap = remove_wall 1 (-1 + 4) two_cells_heap.
Proof.
  assert (Ha : cell_at two_cells_heap 1 (cell_1_0 1) all_walls) by done.
  split; [split; [done | lia] |].
  destruct (remove_wall_algebra two_cells_heap 1 (cell_1_0 1) all_walls
              (-1) 2 Ha ltac:(lia) ltac:(lia)) as (H1 & H2 & H3).
  split; [exact H1 |]. split; [exact H2 | apply H3; lia].
Defined.

(** X7.  [remove_wall] writes to the wall list of its cell and to
    nothing else: the cells keep their flags and their wall lists, a
    cell that holds the same list object sees the wall removed, and
    every other list of the store is as before. *)
Theorem remove_wall_frame h a c ws i :
  cell_at h a c ws → -4 ≤ i < 4 →
  ∃ h', remove_wall a i h = (inr tt, h')
    ∧ cells h' = cells h
    ∧ (∀ b cb, cells h !! b = Some cb → walls cb = walls c →
         walls_of h' b = Some (<[Z.to_nat (i `mod` 4) := VBool false]> ws))
    ∧ (∀ l, l ≠ walls c → lists h' !! l = lists h !! l).
Proof.
  intros (Ha & Hw & Hl) Hi. eexists.
  split; [apply (remove_wall_ok _ _ c ws); [done | done |];
          rewrite Hl; by apply norm_index_mod |].
  split; [done |]. split.
  - intros b cb Hb E. rewrite (walls_of_clear_wall _ _ cb) by done.
    rewrite decide_True by done. unfold walls_of. rewrite Hb. simpl.
    by rewrite E, Hw.
  - intros l Hne. simpl. by rewrite lookup_alter_ne.
Qed.

Lemma remove_wall_frame_witness :
  (cell_at shared_walls_heap 1 (cell_1_0 3) all_walls ∧ -4 ≤ 1 < 4)
  ∧ ∃ h', remove_wall 1 1 shared_walls_heap = (inr tt, h')
    ∧ cells h' = cells shared_walls_heap
    ∧ (∀ b cb, cells shared_walls_heap !! b = Some cb →
         walls cb = walls (cell_1_0 3) →
         walls_of h' b
         = Some (<[Z.to_nat (1 `mod` 4) := VBool false]> all_walls))
    ∧ (∀ l, l ≠ walls (cell_1_0 3) →
         lists h' !! l = lists shared_walls_heap !! l).
Proof.
  assert (Ha : cell_at shared_walls_heap 1 (cell_1_0 3) all_walls) by done.
  split; [split; [done | lia] |].
  apply (remove_wall_frame shared_walls_heap 1 (cell_1_0 3) all_walls 1 Ha).
  lia.
Defined.

(** ** [set_walls] keeps the list it is given *)

Lemma set_walls_ok h a c l xs :
  cells h !! a = Some c → lists h !! l = Some xs → length xs = 4%nat →
  (∀ x, x ∈ xs → isinstance_bool x = true) →
  set_walls a l h = (inr tt, with_walls a l c h).
Proof.
  intros Ha Hl Hlen Hb. unfold set_walls.
  rewrite (bind_ok _ _ _ _ _ (get_list_ok _ _ _ Hl)), Hlen. simpl.
  unfold bind at 1. simpl.
  rewrite (bind_ok _ _ _ _ _ (get_list_ok _ _ _ Hl)).
  assert (forallb isinstance_bool xs = true) as ->.
  { apply forallb_forall. intros x Hx. apply Hb. by apply list_elem_of_In. }
  unfold bind at 1. simpl.
  by rewrite (bind_ok _ _ _ _ _ (get_cell_ok _ _ _ Ha)).
Qed.

(** X8.  [set_walls] copies nothing: no list of the store changes,
    [get_walls] then returns the list object that was given, and a wall
    removed from the cell afterwards is removed in that list, under the
    eyes of whoever else holds it. *)
Theorem set_walls_shares_the_list h a c l xs i :
  cells h !! a = Some c → lists h !! l = Some xs → length xs = 4%nat →
  (∀ x, x ∈ xs → isinstance_bool x = true) → 0 ≤ i < 4 →
  lists (set_walls a l h).2 = lists h
  ∧ ((set_walls a l ;; get_walls a) h).1 = inr l
  ∧ ((set_walls a l ;; remove_wall a i) h).1 = inr tt
  ∧ lists ((set_walls a l ;; remove_wall a i) h).2 !! l
    = Some (<[Z.to_nat i := VBool false]> xs).
Proof.
  intros Ha Hl Hlen Hb Hi.
  pose proof (set_walls_ok h a c l xs Ha Hl Hlen Hb) as Hs.
  assert (Ha' : cells (with_walls a l c h) !! a = Some (set_walls_ref l c))
    by (simpl; apply lookup_insert_eq).
  split; [by rewrite Hs |].
  split; [by rewrite (bind_ok _ _ _ _ _ Hs), (get_walls_ok _ _ _ Ha') |].
  rewrite (bind_ok _ _ _ _ _ Hs).
  rewrite (remove_wall_ok _ a (set_walls_ref l c) xs i (Z.to_nat i))
    by (try done; rewrite Hlen; by apply (norm_index_nonneg 4)).
  split; [done |]. simpl. by rewrite lookup_alter_eq, Hl.
Qed.

Lemma set_walls_shares_the_list_witness :
  let h := (run (a <- Cell_init 1 0 5 5 ;;
                 new_list (bools [true; false; true; false]))).2 in
  (cells h !! 1%positive = Some (cell_1_0 1)
   ∧ lists h !! 2%positive = Some (bools [true; false; true; false])
   ∧ 0 ≤ 2 < 4)
  ∧ ((set_walls 1 2 ;; get_walls 1) h).1 = inr 2%positive
  ∧ lists ((set_walls 1 2 ;; remove_wall 1 2) h).2 !! 2%positive
    = Some (bools [true; false; false; false]).
Proof.
  intros h. split; [split; [done |]; split; [done | lia] |].
  assert (Hb : ∀ x, x ∈ bools [true; false; true; false] →
                    isinstance_bool x = true).
  { intros x Hx. unfold bools in Hx. simpl in Hx.
    repeat (apply elem_of_cons in Hx as [-> | Hx]; [done |]).
    by apply elem_of_nil in Hx. }
  destruct (set_walls_shares_the_list h 1 (cell_1_0 1) 2
              (bools [true; false; true; false]) 2
              eq_refl eq_refl eq_refl Hb ltac:(lia))
    as (_ & H2 & _ & H4).
  split; [exact H2 | exact H4].
Defined.

(** ** Accessible neighbors and removed walls *)

Lemma get_accessible_neighbors_filter h a c bs :
  cells h !! a = Some c → constructed c →
  lists h !! walls c = Some (bools bs) → length bs = 4%nat →
  get_accessible_neighbors a h
  = (inr (filter (λ p, wall_removed c (bools bs) p) (neighbors c)), h).
Proof.
  intros Ha (w & ht & Hnb) Hw Hlen.
  destruct bs as [| b0 [| b1 [| b2 [| b3 [|]]]]]; try discriminate.
  unfold get_accessible_neighbors, directions.
  rewrite (accessible_loop_step h a c w ht [b0; b1; b2; b3] _ _ _ 0 _ b0)
    by (done || lia || (unfold directions; set_solver)).
  rewrite (accessible_loop_step h a c w ht [b0; b1; b2; b3] _ _ _ 1 _ b1)
    by (done || lia || (unfold directions; set_solver)).
  rewrite (accessible_loop_step h a c w ht [b0; b1; b2; b3] _ _ _ 2 _ b2)
    by (done || lia || (unfold directions; set_solver)).
  rewrite (accessible_loop_step h a c w ht [b0; b1; b2; b3] _ _ _ 3 _ b3)
    by (done || lia || (unfold directions; set_solver)).
  simpl accessible_loop. unfold ret. do 2 f_equal.
  rewrite Hnb. unfold init_neighbors, directions.
  change [(-1, 0); (0, 1); (1, 0); (0, -1)]
    with ([(-1, 0)] ++ [(0, 1)] ++ [(1, 0)] ++ [(0, -1)]).
  rewrite !filter_app, !fmap_app, !filter_app.
  rewrite (open_neighbors_of_direction c w ht _ _ _ 0%nat b0) by done.
  rewrite (open_neighbors_of_direction c w ht _ _ _ 1%nat b1) by done.
  rewrite (open_neighbors_of_direction c w ht _ _ _ 2%nat b2) by done.
  rewrite (open_neighbors_of_direction c w ht _ _ _ 3%nat b3) by done.
  by rewrite <- !app_assoc.
Qed.

Lemma facing_neighbor c p :
  constructed c → p ∈ neighbors c →
  ∃ i, facing c p = Some i ∧ (i < 4)%nat.
Proof.
  intros (w & ht & ->) (y & x & Hd & -> & _)%elem_of_init_neighbors.
  rewrite facing_offset.
  direction_cases Hd;
    [exists 0%nat | exists 1%nat | exists 2%nat | exists 3%nat];
    (split; [reflexivity | lia]).
Qed.

Lemma facing_lt c p i : facing c p = Some i → (i < 4)%nat.
Proof.
  unfold facing. intros H. apply fmap_Some in H as ([k d] & Hf & ->).
  apply list_find_Some in Hf as (Hk & _). simpl.
  apply lookup_lt_Some in Hk. exact Hk.
Qed.

Lemma facing_inj c p q i : facing c p = Some i → facing c q = Some i → p = q.
Proof.
  unfold facing. intros Hp Hq.
  apply fmap_Some in Hp as ([k d] & Hp & ->).
  apply fmap_Some in Hq as ([k' d'] & Hq & E). simpl in E. subst k'.
  apply list_find_Some in Hp as (Hk & -> & _).
  apply list_find_Some in Hq as (Hk' & -> & _).
  rewrite Hk in Hk'. injection Hk' as H1 H2.
  destruct p, q. simpl in *. f_equal; lia.
Qed.

Lemma filter_none {A} (P : A → Prop) `{∀ x, Decision (P x)} (l : list A) :
  (∀ x, x ∈ l → ¬ P x) → filter P l = [].
Proof.
  induction l as [| x l IH]; intros Hl; [done |].
  rewrite filter_cons_False by (apply Hl; left).
  apply IH. intros y Hy. apply Hl. by right.
Qed.

Lemma filter_all {A} (P : A → Prop) `{∀ x, Decision (P x)} (l : list A) :
  (∀ x, x ∈ l → P x) → filter P l = l.
Proof.
  induction l as [| x l IH]; intros Hl; [done |].
  rewrite filter_cons_True by (apply Hl; left).
  f_equal. apply IH. intros y Hy. apply Hl. by right.
Qed.

(** X9.  A cell with its four walls up, as [__init__] leaves it, has no
    accessible neighbor; a cell with its four walls removed has all its
    neighbors accessible. *)
Theorem accessible_all_or_none h a c bs :
  cells h !! a = Some c → constructed c →
  lists h !! walls c = Some (bools bs) →
  (bs = [true; true; true; true] →
     get_accessible_neighbors a h = (inr [], h))
  ∧ (bs = [false; false; false; false] →
     get_accessible_neighbors a h = (inr (neighbors c), h)).
Proof.
  intros Ha Hc Hw. split; intros ->.
  - rewrite (get_accessible_neighbors_filter h a c _ Ha Hc Hw) by done.
    rewrite filter_none; [done |]. intros p _. unfold wall_removed.
    destruct (facing c p) as [i |] eqn:Hf; [| by intros []].
    apply facing_lt in Hf. intros Hp%bool_decide_unpack.
    by destruct i as [| [| [| [| ?]]]]; try lia.
  - rewrite (get_accessible_neighbors_filter h a c _ Ha Hc Hw) by done.
    rewrite filter_all; [done |]. intros p Hp. unfold wall_removed.
    destruct (facing_neighbor c p Hc Hp) as (i & -> & Hi).
    apply bool_decide_pack.
    by destruct i as [| [| [| [| ?]]]]; try lia.
Qed.

Lemma accessible_all_or_none_witness :
  (cells two_cells_heap !! 1%positive = Some (cell_1_0 1)
   ∧ constructed (cell_1_0 1)
   ∧ lists two_cells_heap !! walls (cell_1_0 1)
     = Some (bools [true; true; true; true]))
  ∧ get_accessible_neighbors 1 two_cells_heap = (inr [], two_cells_heap).
Proof.
  assert (Hc : constructed (cell_1_0 1)) by (by exists 5, 5).
  split; [done |].
  by apply (accessible_all_or_none two_cells_heap 1 (cell_1_0 1)
              [true; true; true; true]).
Defined.

Lemma clear_wall_bools w n h l bs :
  lists h !! l = Some (bools bs) →
  ∃ bs', lists (clear_wall w n h) !! l = Some (bools bs')
         ∧ length bs' = length bs
         ∧ (∀ k, bs !! k = Some false → bs' !! k = Some false)
         ∧ (w = l → (n < length bs)%nat → bs' !! n = Some false)
         ∧ (∀ k, w ≠ l ∨ k ≠ n → bs' !! k = bs !! k).
Proof.
  intros Hl. unfold clear_wall. simpl. rewrite lookup_alter.
  destruct (decide (w = l)) as [-> | Hne].
  - exists (<[n := false]> bs). rewrite Hl. simpl.
    split; [by unfold bools; rewrite list_fmap_insert |].
    split; [by rewrite length_insert |].
    split.
    { intros k Hk. destruct (decide (n = k)) as [-> | ?].
      - apply list_lookup_insert_eq. by apply lookup_lt_Some in Hk.
      - by rewrite list_lookup_insert_ne. }
    split; [intros _ Hn; by apply list_lookup_insert_eq |].
    intros k [? | ?]; [done |]. by rewrite list_lookup_insert_ne.
  - exists bs. repeat split; try done.
Qed.

(** X10.  When [a.remove_wall_between_cell(b)] returns, on two cells
    that are neighbors of each other, [get_accessible_neighbors] of
    each lists the position of the other, whether or not the two cells
    share a wall list. *)
Theorem carved_passage_is_accessible h a b ca cb bsa bsb :
  a ≠ b → cell_at h a ca (bools bsa) → cell_at h b cb (bools bsb) →
  constructed ca → constructed cb →
  position cb ∈ neighbors ca → position ca ∈ neighbors cb →
  ∃ h' acca accb,
    remove_wall_between_cell a (VCell b) h = (inr tt, h')
    ∧ get_accessible_neighbors a h' = (inr acca, h')
    ∧ position cb ∈ acca
    ∧ get_accessible_neighbors b h' = (inr accb, h')
    ∧ position ca ∈ accb.
Proof.
  intros Hab Ha Hb Hca Hcb Hadj Hadj'.
  destruct (remove_wall_between_cell_ok h a b ca cb _ _ Hab Ha Hb Hca Hadj)
    as (da & db & _ & Hfa & Hfb & _ & _ & Hrun).
  destruct Ha as (Ha & Hwa & Hla), Hb as (Hb & Hwb & Hlb).
  unfold bools in Hla, Hlb. rewrite length_fmap in Hla, Hlb.
  pose proof (facing_lt _ _ _ Hfa) as Hia.
  pose proof (facing_lt _ _ _ Hfb) as Hib.
  set (h1 := clear_wall (walls ca) (wall_index da) h) in *.
  set (h2 := clear_wall (walls cb) (wall_index db) h1) in *.
  destruct (clear_wall_bools (walls ca) (wall_index da) h _ _ Hwa)
    as (bsa1 & Hwa1 & Hla1 & _ & Hfalse1 & _).
  destruct (clear_wall_bools (walls cb) (wall_index db) h1 _ _ Hwa1)
    as (bsa2 & Hwa2 & Hla2 & Hkeep2 & _ & _).
  destruct (clear_wall_bools (walls ca) (wall_index da) h _ _ Hwb)
    as (bsb1 & Hwb1 & Hlb1 & _ & _ & _).
  destruct (clear_wall_bools (walls cb) (wall_index db) h1 _ _ Hwb1)
    as (bsb2 & Hwb2 & Hlb2 & _ & Hfalse2 & _).
  exists h2. eexists _, _. split; [exact Hrun |].
  split; [apply (get_accessible_neighbors_filter h2 a ca bsa2);
          [done | done | done | lia] |].
  split.
  { apply list_elem_of_filter. split; [| done]. unfold wall_removed.
    rewrite Hfa. apply bool_decide_pack. unfold bools.
    rewrite list_lookup_fmap, Hkeep2; [done |]. apply Hfalse1; [done | lia]. }
  split; [apply (get_accessible_neighbors_filter h2 b cb bsb2);
          [done | done | done | lia] |].
  apply list_elem_of_filter. split; [| done]. unfold wall_removed.
  rewrite Hfb. apply bool_decide_pack. unfold bools.
  rewrite list_lookup_fmap, Hfalse2; [done | done | lia].
Qed.

Lemma carved_passage_is_accessible_witness :
  ((1 ≠ 2)%positive
   ∧ cell_at shared_walls_heap 1 (cell_1_0 3) all_walls
   ∧ cell_at shared_walls_heap 2 (cell_0_0 3) all_walls
   ∧ constructed (cell_1_0 3) ∧ constructed (cell_0_0 3)
   ∧ position (cell_0_0 3) ∈ neighbors (cell_1_0 3)
   ∧ position (cell_1_0 3) ∈ neighbors (cell_0_0 3))
  ∧ ∃ h' acca accb,
      remove_wall_between_cell 1 (VCell 2) shared_walls_heap = (inr tt, h')
      ∧ get_accessible_neighbors 1 h' = (inr acca, h')
      ∧ position (cell_0_0 3) ∈ acca
      ∧ get_accessible_neighbors 2 h' = (inr accb, h')
      ∧ position (cell_1_0 3) ∈ accb.
Proof.
  assert (H1 : constructed (cell_1_0 3)) by (by exists 5, 5).
  assert (H2 : constructed (cell_0_0 3)) by (by exists 5, 5).
  assert (H3 : position (cell_0_0 3) ∈ neighbors (cell_1_0 3)) by left.
  assert (H4 : position (cell_1_0 3) ∈ neighbors (cell_0_0 3))
    by (right; left).
  split; [done |].
  by apply (carved_passage_is_accessible shared_walls_heap 1 2
              (cell_1_0 3) (cell_0_0 3)
              [true; true; true; true] [true; true; true; true]).
Defined.

(** ** What [remove_wall_between_cell] can do *)

Lemma get_cell_dangling h a :
  cells h !! a = None → get_cell a h = (inl DanglingReference, h).
Proof. unfold get_cell. by intros ->. Qed.

Lemma get_row_dangling h a :
  cells h !! a = None → get_row a h = (inl DanglingReference, h).
Proof.
  intros H. unfold get_row.
  by rewrite (bind_raise _ _ _ _ _ (get_cell_dangling _ _ H)).
Qed.

Lemma remove_wall_between_cell_cases h x v :
  heap_ok h →
  (∃ e, remove_wall_between_cell x v h = (inl e, h)
        ∧ (is_Some (cells h !! x) →
           (∀ y, v = VCell y → is_Some (cells h !! y)) →
           ∃ msg, e = AssertionError msg))
  ∨ (∃ y cx cy i j,
       v = VCell y ∧ x ≠ y
       ∧ cells h !! x = Some cx ∧ cells h !! y = Some cy
       ∧ position cy ∈ neighbors cx
       ∧ facing cx (position cy) = Some i
       ∧ facing cy (position cx) = Some j
       ∧ remove_wall_between_cell x v h
         = (inr tt, clear_wall (walls cy) j (clear_wall (walls cx) i h))).
Proof.
  intros Hh.
  destruct (as_Cell v) as [y |] eqn:Hv.
  2: { left. eexists. unfold remove_wall_between_cell. rewrite Hv.
       split; [reflexivity | by eexists]. }
  destruct v; try discriminate. injection Hv as ->.
  destruct (decide (x = y)) as [<- | Hxy].
  { left. eexists. unfold remove_wall_between_cell. simpl.
    rewrite bool_decide_eq_true_2 by done.
    split; [reflexivity | by eexists]. }
  destruct (cells h !! y) as [cy |] eqn:Hy.
  2: { left. exists DanglingReference. split.
       - unfold remove_wall_between_cell. simpl.
         rewrite bool_decide_eq_false_2 by done. simpl.
         unfold bind at 1. simpl.
         by rewrite (bind_raise _ _ _ _ _ (get_row_dangling _ _ Hy)).
       - intros _ H. destruct (H y eq_refl) as [? E]. congruence. }
  destruct (cells h !! x) as [cx |] eqn:Hx.
  2: { left. exists DanglingReference. split.
       - unfold remove_wall_between_cell. simpl.
         rewrite bool_decide_eq_false_2 by done. simpl.
         unfold bind at 1. simpl. run_reads.
         by rewrite (bind_raise _ _ _ _ _ (get_cell_dangling _ _ Hx)).
       - intros [? E]. congruence. }
  destruct (decide (position cy ∈ neighbors cx)) as [Hadj | Hadj].
  - right.
    destruct (heap_ok_cell_at h x cx Hh Hx) as (Hcx & bsx & Hax).
    destruct (heap_ok_cell_at h y cy Hh Hy) as (_ & bsy & Hay).
    destruct (remove_wall_between_cell_ok h x y cx cy _ _ Hxy Hax Hay Hcx Hadj)
      as (da & db & _ & Hfa & Hfb & _ & _ & Hrun).
    by exists y, cx, cy, (wall_index da), (wall_index db).
  - left. eexists. split; [| by eexists].
    unfold remove_wall_between_cell. simpl.
    rewrite bool_decide_eq_false_2 by done. simpl.
    unfold bind at 1. simpl. run_reads.
    by rewrite bool_decide_eq_false_2.
Qed.

(** X11.  In a store where every cell has four boolean walls and the
    neighbor list of [__init__], as the interface keeps it, a call of
    [remove_wall_between_cell] on a cell, with any value for the other,
    either returns or raises an assertion error and then has changed
    nothing: it never raises an index error and never stops between
    its two removals. *)
Theorem remove_wall_between_cell_all_or_nothing h a v :
  heap_ok h → is_Some (cells h !! a) →
  (∀ b, v = VCell b → is_Some (cells h !! b)) →
  (∃ h', remove_wall_between_cell a v h = (inr tt, h'))
  ∨ (∃ msg, remove_wall_between_cell a v h = (inl (AssertionError msg), h)).
Proof.
  intros Hh Ha Hv.
  destruct (remove_wall_between_cell_cases h a v Hh)
    as [(e & Hrun & He) | (y & cx & cy & i & j & _ & _ & _ & _ & _ & _ & _ & Hrun)].
  - right. destruct (He Ha Hv) as (msg & ->). by exists msg.
  - left. by eexists.
Qed.

Lemma two_cells_heap_ok : heap_ok two_cells_heap.
Proof. exact (reachable_heap_ok [CallInit 1 0 5 5; CallInit 0 0 5 5]). Qed.

Lemma remove_wall_between_cell_all_or_nothing_witness :
  (heap_ok two_cells_heap ∧ is_Some (cells two_cells_heap !! 1%positive))
  ∧ ((∃ h', remove_wall_between_cell 1 VNone two_cells_heap = (inr tt, h'))
     ∨ (∃ msg, remove_wall_between_cell 1 VNone two_cells_heap
               = (inl (AssertionError msg), two_cells_heap))).
Proof.
  assert (H : is_Some (cells two_cells_heap !! 1%positive)) by by eexists.
  split; [split; [apply two_cells_heap_ok | done] |].
  apply (remove_wall_between_cell_all_or_nothing two_cells_heap 1 VNone);
    [apply two_cells_heap_ok | done | discriminate].
Defined.

(** X12.  After any sequence of calls of the interface from the empty
    store, every cell has the neighbor list [__init__] computed and, for
    walls, a list of exactly four booleans. *)
Theorem walls_are_four_booleans cs a c :
  cells (exec_all cs empty_heap) !! a = Some c →
  constructed c
  ∧ ∃ bs, walls_of (exec_all cs empty_heap) a = Some (bools bs)
          ∧ length bs = 4%nat.
Proof.
  intros Ha. destruct (reachable_heap_ok cs a c Ha) as (Hc & bs & Hw & Hl).
  split; [done |]. exists bs. split; [| done].
  unfold walls_of. rewrite Ha. simpl. exact Hw.
Qed.

Lemma walls_are_four_booleans_witness :
  let cs := [CallInit 1 0 5 5; CallList [VInt 3]; CallSetWalls 1 2;
             CallRemoveWall 1 7; CallRemoveWall 1 (-3)] in
  cells (exec_all cs empty_heap) !! 1%positive = Some (cell_1_0 1)
  ∧ constructed (cell_1_0 1)
  ∧ ∃ bs, walls_of (exec_all cs empty_heap) 1 = Some (bools bs)
          ∧ length bs = 4%nat.
Proof.
  intros cs. split; [done |].
  by apply (walls_are_four_booleans cs 1 (cell_1_0 1)).
Defined.

(** ** Cells and their wall lists *)

Lemma walls_kept_refl h : walls_kept h h.
Proof. by split. Qed.

Lemma walls_kept_trans h1 h2 h3 :
  walls_kept h1 h2 → walls_kept h2 h3 → walls_kept h1 h3.
Proof.
  intros [Hc Hl] [Hc' Hl']. split.
  - intros a. by rewrite Hc', Hc.
  - intros l H. by apply Hl', Hl.
Qed.

Lemma kw_ret {A} (x : A) : keeps_walls (ret x).
Proof. intros h. apply walls_kept_refl. Qed.

Lemma kw_raise {A} e : keeps_walls (@raise A e).
Proof. intros h. apply walls_kept_refl. Qed.

Lemma kw_bind {A B} (m : M A) (k : A → M B) :
  keeps_walls m → (∀ x, keeps_walls (k x)) → keeps_walls (bind m k).
Proof.
  intros Hm Hk h. unfold bind. specialize (Hm h).
  destruct (m h) as [[e | x] h1]; [done |].
  eapply walls_kept_trans; [exact Hm | apply Hk].
Qed.

Lemma kw_assert b msg : keeps_walls (assert b msg).
Proof. destruct b; [apply kw_ret | apply kw_raise]. Qed.

Lemma kw_get_cell a : keeps_walls (get_cell a).
Proof.
  intros h. unfold get_cell. destruct (cells h !! a); apply walls_kept_refl.
Qed.

Lemma kw_get_list l : keeps_walls (get_list l).
Proof.
  intros h. unfold get_list. destruct (lists h !! l); apply walls_kept_refl.
Qed.

Lemma kw_py_not v : keeps_walls (py_not v).
Proof. intros h. apply walls_kept_refl. Qed.

Lemma kw_put_list l xs : keeps_walls (put_list l xs).
Proof.
  intros h. split; [done |]. intros l' H. simpl.
  apply lookup_insert_is_Some. destruct (decide (l = l')); auto.
Qed.

Lemma kw_new_list xs : keeps_walls (new_list xs).
Proof.
  intros h. split; [done |]. intros l' H. simpl.
  apply lookup_insert_is_Some. destruct (decide (fresh (dom (lists h)) = l')); auto.
Qed.

Lemma kw_set_visited a v :
  keeps_walls (c <- get_cell a ;; put_cell a (set_visited v c)).
Proof.
  intros h. unfold bind, get_cell, put_cell.
  destruct (cells h !! a) as [c |] eqn:Ha; [| apply walls_kept_refl].
  split; [| done]. intros a'. simpl.
  destruct (decide (a = a')) as [<- | Hne].
  - by rewrite lookup_insert_eq, Ha.
  - by rewrite lookup_insert_ne.
Qed.

Create HintDb walls.
#[local] Hint Resolve kw_ret kw_raise kw_assert kw_get_cell kw_get_list
  kw_py_not kw_put_list kw_new_list kw_set_visited : walls.

Ltac keeps_walls :=
  repeat first
    [ progress eauto with walls
    | apply kw_bind; [| intros ?]
    | match goal with
      | |- keeps_walls (match ?x with _ => _ end) => destruct x
      | |- keeps_walls (if ?b then _ else _) => destruct b
      end ].

Lemma kw_remove_wall a i : keeps_walls (remove_wall a i).
Proof. unfold remove_wall, list_setitem. keeps_walls. Qed.

Lemma kw_accessible_loop a dirs :
  ∀ i acc, keeps_walls (accessible_loop a dirs i acc).
Proof.
  induction dirs as [| [y x] dirs IH]; intros i acc; simpl; [keeps_walls |].
  apply kw_bind; [keeps_walls | intros c].
  apply kw_bind; [| intros ?; apply IH].
  destruct (bool_decide _); [| keeps_walls].
  unfold list_getitem. keeps_walls.
Qed.

Lemma kw_remove_wall_between_cell a v :
  keeps_walls (remove_wall_between_cell a v).
Proof.
  unfold remove_wall_between_cell, get_row, get_column.
  destruct (as_Cell v) as [b |]; [| keeps_walls].
  do 8 (apply kw_bind; [keeps_walls | intros ?]).
  destruct (negb _); apply kw_bind;
    (apply kw_remove_wall || (intros; apply kw_remove_wall)).
Qed.

Lemma exec_walls_kept c h :
  (∀ r k w ht, c ≠ CallInit r k w ht) → is_set_walls c = false →
  walls_kept h (exec c h).
Proof.
  intros Hinit Hset. destruct c; simpl; try discriminate.
  - by destruct (Hinit row0 column width height).
  - apply kw_new_list.
  - apply kw_set_visited.
  - apply kw_set_visited.
  - unfold get_column. by keeps_walls.
  - unfold get_row. by keeps_walls.
  - unfold is_visited. by keeps_walls.
  - unfold get_neighbors. by keeps_walls.
  - apply kw_accessible_loop.
  - unfold Cell_repr, Cell_str. by keeps_walls.
  - unfold Cell_str. by keeps_walls.
  - apply kw_remove_wall.
  - unfold get_walls. by keeps_walls.
  - apply kw_remove_wall_between_cell.
Qed.

Lemma walls_kept_unshared h h' :
  walls_kept h h' → unshared h ∧ walls_live h → unshared h' ∧ walls_live h'.
Proof.
  intros [Hc Hl] [Hu Hlive].
  assert (Hback : ∀ a c', cells h' !! a = Some c' →
            ∃ c, cells h !! a = Some c ∧ walls c = walls c').
  { intros a c' Ha. specialize (Hc a). rewrite Ha in Hc. simpl in Hc.
    destruct (cells h !! a) as [c |]; [| done].
    exists c. split; [done |]. by injection Hc. }
  split.
  - intros a b ca cb Ha Hb Hab.
    destruct (Hback a ca Ha) as (ca0 & Ha0 & <-).
    destruct (Hback b cb Hb) as (cb0 & Hb0 & <-).
    by apply (Hu a b).
  - intros a c Ha. destruct (Hback a c Ha) as (c0 & Ha0 & <-).
    by apply Hl, (Hlive a).
Qed.

Lemma Cell_init_unshared r k w ht h :
  unshared h ∧ walls_live h →
  unshared (Cell_init r k w ht h).2 ∧ walls_live (Cell_init r k w ht h).2.
Proof.
  intros [Hu Hlive]. rewrite Cell_init_ok. simpl.
  set (a := fresh (dom (cells h))). set (l := fresh (dom (lists h))).
  assert (Hl : ∀ b cb, cells h !! b = Some cb → walls cb ≠ l).
  { intros b cb Hb E. destruct (Hlive b cb Hb) as [xs Hxs].
    rewrite E in Hxs. unfold l in Hxs. by rewrite fresh_list in Hxs. }
  split.
  - intros b1 b2 c1 c2. simpl.
    rewrite !lookup_insert_Some.
    intros [[<- <-] | [? H1]] [[<- <-] | [? H2]] Hne; simpl; try done.
    + intros E. by apply (Hl b2 c2).
    + by apply (Hl b1 c1).
    + by apply (Hu b1 b2).
  - intros b c. simpl. rewrite lookup_insert_Some.
    intros [[<- <-] | [? Hb]]; simpl.
    + rewrite lookup_insert_eq. by eexists.
    + apply lookup_insert_is_Some. right. split; [| by apply (Hlive b)].
      intros E. by apply (Hl b c).
Qed.

Lemma exec_unshared c h :
  is_set_walls c = false →
  unshared h ∧ walls_live h → unshared (exec c h) ∧ walls_live (exec c h).
Proof.
  intros Hset Hh.
  assert (Hc : (∃ r k w ht, c = CallInit r k w ht)
               ∨ ∀ r k w ht, c ≠ CallInit r k w ht)
    by (destruct c; [left; by eexists _, _, _, _ | by right ..]).
  destruct Hc as [(r & k & w & ht & ->) | Hno].
  - by apply Cell_init_unshared.
  - apply (walls_kept_unshared h); [| done]. by apply exec_walls_kept.
Qed.

Lemma exec_all_unshared cs :
  ∀ h, Forall (λ c, is_set_walls c = false) cs →
       unshared h ∧ walls_live h →
       unshared (exec_all cs h) ∧ walls_live (exec_all cs h).
Proof.
  induction cs as [| c cs IH]; intros h Hcs Hh; [done |].
  apply Forall_cons in Hcs as [Hc Hcs]. simpl.
  apply IH; [done |]. by apply exec_unshared.
Qed.

Lemma empty_heap_unshared : unshared empty_heap ∧ walls_live empty_heap.
Proof.
  split.
  - intros a b ca cb Ha. simpl in Ha. by rewrite lookup_empty in Ha.
  - intros a c Ha. simpl in Ha. by rewrite lookup_empty in Ha.
Qed.

(** X13.  Only [set_walls] makes cells share walls: after any calls of
    the interface from the empty store among which there is no
    [set_walls], every cell holds a wall list of its own, since
    [__init__] gives each cell a new list. *)
Theorem walls_shared_by_set_walls_only cs :
  Forall (λ c, is_set_walls c = false) cs →
  unshared (exec_all cs empty_heap).
Proof.
  intros Hcs. by apply exec_all_unshared; [| apply empty_heap_unshared].
Qed.

Lemma walls_shared_by_set_walls_only_witness :
  let cs := [CallInit 1 0 5 5; CallInit 0 0 5 5;
             CallRemoveWallBetweenCell 1 (VCell 2)] in
  Forall (λ c, is_set_walls c = false) cs
  ∧ unshared (exec_all cs empty_heap).
Proof.
  intros cs.
  assert (H : Forall (λ c, is_set_walls c = false) cs)
    by (repeat constructor).
  split; [done |]. by apply (walls_shared_by_set_walls_only cs).
Defined.

(** ** Passages are two-way *)

Lemma wall_removed_true c ws p :
  wall_removed c ws p = true
  ↔ ∃ k, facing c p = Some k ∧ ws !! k = Some (VBool false).
Proof.
  unfold wall_removed. destruct (facing c p) as [k |].
  - rewrite bool_decide_eq_true. split; [by exists k |].
    by intros (k' & [= <-] & H).
  - split; [done | by intros (k & ? & _)].
Qed.

Lemma open_towards_iff h a c ws p :
  cells h !! a = Some c → lists h !! walls c = Some ws →
  open_towards h a p
  ↔ ∃ k, facing c p = Some k ∧ ws !! k = Some (VBool false).
Proof.
  intros Ha Hw. rewrite <- wall_removed_true. split.
  - intros (c' & ws' & Ha' & Hw' & H).
    assert (c' = c) as -> by congruence. by assert (ws' = ws) as -> by congruence.
  - intros H. by exists c, ws.
Qed.

Lemma lookup_clear_wall w n h l :
  lists (clear_wall w n h) !! l
  = (if decide (w = l) then <[n := VBool false]> else id) <$> lists h !! l.
Proof.
  unfold clear_wall. simpl. rewrite lookup_alter.
  destruct (decide (w = l)) as [-> |]; [done |]. by destruct (lists h !! l).
Qed.

Lemma open_towards_after h x y cx cy i j a ca p :
  heap_ok h → unshared h → x ≠ y →
  cells h !! x = Some cx → cells h !! y = Some cy →
  (i < 4)%nat → (j < 4)%nat →
  cells h !! a = Some ca →
  open_towards (clear_wall (walls cy) j (clear_wall (walls cx) i h)) a p
  ↔ open_towards h a p
    ∨ (a = x ∧ facing ca p = Some i) ∨ (a = y ∧ facing ca p = Some j).
Proof.
  intros Hh Hu Hxy Hx Hy Hi Hj Ha.
  destruct (Hh a ca Ha) as (_ & bs & Hw & Hlen).
  assert (Hlen' : length (bools bs) = 4%nat)
    by (unfold bools; by rewrite length_fmap).
  rewrite (open_towards_iff h a ca (bools bs)) by done.
  set (h' := clear_wall (walls cy) j (clear_wall (walls cx) i h)).
  assert (Ha' : cells h' !! a = Some ca) by done.
  assert (Hw' : lists h' !! walls ca
    = Some ((if decide (walls cy = walls ca) then <[j := VBool false]> else id)
            ((if decide (walls cx = walls ca) then <[i := VBool false]> else id)
               (bools bs)))).
  { unfold h'. by rewrite !lookup_clear_wall, Hw. }
  rewrite (open_towards_iff h' a ca _ p Ha' Hw').
  destruct (decide (a = x)) as [-> | Hax];
    [| destruct (decide (a = y)) as [-> | Hay]].
  - assert (ca = cx) as -> by congruence.
    destruct (decide (walls cy = walls cx)) as [E | _];
      [by destruct (Hu x y cx cy Hx Hy Hxy) |].
    destruct (decide (walls cx = walls cx)) as [_ | ?]; [| done].
    unfold id. split.
    + intros (k & Hf & Hk). destruct (decide (k = i)) as [-> | Hne];
        [right; left; done |].
      left. exists k. by rewrite list_lookup_insert_ne in Hk.
    + intros [(k & Hf & Hk) | [[_ Hf] | [-> _]]]; [| | done].
      * exists k. split; [done |]. destruct (decide (i = k)) as [-> | Hne].
        -- apply list_lookup_insert_eq. lia.
        -- by rewrite list_lookup_insert_ne.
      * exists i. split; [done |]. apply list_lookup_insert_eq. lia.
  - assert (ca = cy) as -> by congruence.
    destruct (decide (walls cx = walls cy)) as [E | _];
      [by destruct (Hu x y cx cy Hx Hy Hxy) |].
    destruct (decide (walls cy = walls cy)) as [_ | ?]; [| done].
    unfold id. split.
    + intros (k & Hf & Hk). destruct (decide (k = j)) as [-> | Hne];
        [right; right; done |].
      left. exists k. by rewrite list_lookup_insert_ne in Hk.
    + intros [(k & Hf & Hk) | [[-> _] | [_ Hf]]]; [| done |].
      * exists k. split; [done |]. destruct (decide (j = k)) as [-> | Hne].
        -- apply list_lookup_insert_eq. lia.
        -- by rewrite list_lookup_insert_ne.
      * exists j. split; [done |]. apply list_lookup_insert_eq. lia.
  - destruct (decide (walls cy = walls ca)) as [E | _];
      [by destruct (Hu a y ca cy Ha Hy Hay) |].
    destruct (decide (walls cx = walls ca)) as [E | _];
      [by destruct (Hu a x ca cx Ha Hx Hax) |].
    unfold id. split; [by left |]. by intros [? | [[? _] | [? _]]].
Qed.

Lemma two_way_carved w ht h x v :
  heap_ok h → unshared h → maze w ht h → two_way h →
  two_way (remove_wall_between_cell x v h).2.
Proof.
  intros Hh Hu [_ Hpos] Htw.
  destruct (remove_wall_between_cell_cases h x v Hh)
    as [(e & -> & _) | (y & cx & cy & i & j & -> & Hxy & Hx & Hy & Hadj
                        & Hfx & Hfy & ->)]; [done |].
  simpl. intros a b ca cb Ha Hb Hab.
  change (cells h !! a = Some ca) in Ha. change (cells h !! b = Some cb) in Hb.
  pose proof (facing_lt _ _ _ Hfx) as Hi.
  pose proof (facing_lt _ _ _ Hfy) as Hj.
  rewrite (open_towards_after h x y cx cy i j a ca) by done.
  rewrite (open_towards_after h x y cx cy i j b cb) by done.
  specialize (Htw a b ca cb Ha Hb Hab).
  assert (H1 : a = x ∧ facing ca (position cb) = Some i
               ↔ b = y ∧ facing cb (position ca) = Some j).
  { split.
    - intros [-> Hf]. assert (ca = cx) as -> by congruence.
      assert (b = y) as ->
        by (apply (Hpos b y cb cy Hb Hy), (facing_inj cx _ _ i); done).
      by assert (cb = cy) as -> by congruence.
    - intros [-> Hf]. assert (cb = cy) as -> by congruence.
      assert (a = x) as ->
        by (apply (Hpos a x ca cx Ha Hx), (facing_inj cy _ _ j); done).
      by assert (ca = cx) as -> by congruence. }
  assert (H2 : a = y ∧ facing ca (position cb) = Some j
               ↔ b = x ∧ facing cb (position ca) = Some i).
  { split.
    - intros [-> Hf]. assert (ca = cy) as -> by congruence.
      assert (b = x) as ->
        by (apply (Hpos b x cb cx Hb Hx), (facing_inj cy _ _ j); done).
      by assert (cb = cx) as -> by congruence.
    - intros [-> Hf]. assert (cb = cx) as -> by congruence.
      assert (a = y) as ->
        by (apply (Hpos a y ca cy Ha Hy), (facing_inj cx _ _ i); done).
      by assert (ca = cy) as -> by congruence. }
  tauto.
Qed.

Lemma exec_read c h : is_read c = true → exec c h = h.
Proof.
  destruct c; try discriminate; intros _; simpl;
    try (apply read_bind; [apply read_get_cell | done]).
  apply read_accessible_loop.
Qed.

Lemma heap_ok_walls_live h : heap_ok h → walls_live h.
Proof. intros Hh a c Ha. destruct (Hh a c Ha) as (_ & bs & -> & _). by eexists. Qed.

(** The walls are those of [h]: same cells up to their flags, same
    contents of their wall lists. *)
Lemma two_way_same_walls h h' :
  (∀ a c', cells h' !! a = Some c' →
     ∃ c, cells h !! a = Some c ∧ row c = row c' ∧ col c = col c'
          ∧ neighbors c = neighbors c' ∧ walls c = walls c') →
  (∀ a c, cells h !! a = Some c → lists h' !! walls c = lists h !! walls c) →
  two_way h → two_way h'.
Proof.
  intros Hc Hl Htw.
  assert (Hopen : ∀ a c' p, cells h' !! a = Some c' →
            (open_towards h' a p ↔ open_towards h a p)).
  { intros a c' p Ha'. destruct (Hc a c' Ha') as (c & Ha & Hr & Hk & _ & Hw).
    assert (Hwr : ∀ ws, wall_removed c' ws p = wall_removed c ws p)
      by (intros ws; unfold wall_removed, facing; by rewrite Hr, Hk).
    split.
    - intros (c1 & ws & Ha1 & Hw1 & H). assert (c1 = c') as -> by congruence.
      exists c, ws. split; [done |]. rewrite <- Hwr.
      split; [| done]. by rewrite <- (Hl a c Ha), Hw.
    - intros (c1 & ws & Ha1 & Hw1 & H). assert (c1 = c) as -> by congruence.
      exists c', ws. split; [done |]. rewrite Hwr.
      split; [| done]. by rewrite <- Hw, (Hl a c Ha). }
  intros a b ca' cb' Ha' Hb' Hadj.
  rewrite (Hopen a ca' _ Ha'), (Hopen b cb' _ Hb').
  destruct (Hc a ca' Ha') as (ca & Ha & Hra & Hka & Hna & _).
  destruct (Hc b cb' Hb') as (cb & Hb & Hrb & Hkb & Hnb & _).
  unfold position in *. rewrite <- Hra, <- Hka, <- Hrb, <- Hkb.
  apply (Htw a b ca cb Ha Hb). unfold position. by rewrite Hna, Hrb, Hkb.
Qed.

Lemma two_way_set_visited h a v :
  two_way h → two_way ((c <- get_cell a ;; put_cell a (set_visited v c)) h).2.
Proof.
  unfold bind, get_cell, put_cell.
  destruct (cells h !! a) as [c |] eqn:Ha; [| done]. simpl.
  apply two_way_same_walls; simpl.
  - intros a' c'. rewrite lookup_insert_Some.
    intros [[<- <-] | [_ Ha']]; [by exists c | by exists c'].
  - done.
Qed.

Lemma two_way_new_list h xs :
  walls_live h → two_way h → two_way (new_list xs h).2.
Proof.
  intros Hlive. apply two_way_same_walls; simpl.
  - intros a c Ha. by exists c.
  - intros a c Ha. rewrite lookup_insert_ne; [done |].
    intros E. destruct (Hlive a c Ha) as [ws Hws].
    by rewrite <- E, fresh_list in Hws.
Qed.

Lemma maze_kept w ht h h' :
  same_geometry h h' → walls_kept h h' → maze w ht h → maze w ht h'.
Proof.
  intros Hg [Hc _] [Hm Hpos].
  assert (Hback : ∀ a c', cells h' !! a = Some c' →
            ∃ c, cells h !! a = Some c ∧ row c' = row c ∧ col c' = col c
                 ∧ neighbors c' = neighbors c).
  { intros a c' Ha'. specialize (Hc a). rewrite Ha' in Hc. simpl in Hc.
    destruct (cells h !! a) as [c |] eqn:Ha; [| done].
    destruct (Hg a c Ha) as (c'' & Ha'' & ?).
    assert (c'' = c') as -> by congruence. by exists c. }
  split.
  - intros a c' Ha'. destruct (Hback a c' Ha') as (c & Ha & Hr & Hk & Hn).
    destruct (Hm a c Ha) as [Hnb Hin].
    unfold position in *. by rewrite Hr, Hk, Hn.
  - intros a b ca' cb' Ha' Hb' Hp.
    destruct (Hback a ca' Ha') as (ca & Ha & Hra & Hka & _).
    destruct (Hback b cb' Hb') as (cb & Hb & Hrb & Hkb & _).
    apply (Hpos a b ca cb Ha Hb). unfold position in *. congruence.
Qed.

Lemma exec_carving w ht c h :
  is_carving c = true →
  heap_ok h ∧ unshared h ∧ maze w ht h ∧ two_way h →
  heap_ok (exec c h) ∧ unshared (exec c h) ∧ maze w ht (exec c h)
  ∧ two_way (exec c h).
Proof.
  intros Hc (Hh & Hu & Hm & Htw).
  assert (Hset : is_set_walls c = false) by by destruct c.
  assert (Hinit : ∀ r k w' ht', c ≠ CallInit r k w' ht') by by destruct c.
  split; [by apply exec_heap_ok |].
  split; [apply exec_unshared; [done |]; split;
          [done | by apply heap_ok_walls_live] |].
  split; [apply (maze_kept w ht h);
          [apply exec_same_geometry | by apply exec_walls_kept | done] |].
  destruct c; try discriminate; try (by rewrite exec_read); simpl.
  - by apply two_way_new_list; [apply heap_ok_walls_live |].
  - by apply two_way_set_visited.
  - by apply two_way_set_visited.
  - by apply (two_way_carved w ht).
Qed.

Lemma exec_all_carving w ht cs :
  ∀ h, Forall (λ c, is_carving c = true) cs →
       heap_ok h ∧ unshared h ∧ maze w ht h ∧ two_way h →
       heap_ok (exec_all cs h) ∧ unshared (exec_all cs h)
       ∧ maze w ht (exec_all cs h) ∧ two_way (exec_all cs h).
Proof.
  induction cs as [| c cs IH]; intros h Hcs Hh; [done |].
  apply Forall_cons in Hcs as [Hc Hcs]. simpl.
  apply IH; [done |]. by apply exec_carving.
Qed.

Lemma wall_removed_all_walls c p : wall_removed c all_walls p = false.
Proof.
  unfold wall_removed. destruct (facing c p) as [i |] eqn:Hf; [| done].
  apply facing_lt in Hf. apply bool_decide_eq_false_2.
  by destruct i as [| [| [| [| ?]]]]; try lia.
Qed.

Lemma construct_maze w ht ps :
  ∀ h (S : list (Z * Z)),
    unshared h ∧ walls_live h →
    (∀ a c, cells h !! a = Some c →
       neighbors c = init_neighbors (row c) (col c) w ht
       ∧ in_bounds w ht (position c) ∧ position c ∈ S
       ∧ lists h !! walls c = Some all_walls) →
    (∀ a b ca cb, cells h !! a = Some ca → cells h !! b = Some cb →
       position ca = position cb → a = b) →
    NoDup ps → (∀ p, p ∈ ps → in_bounds w ht p ∧ p ∉ S) →
    maze w ht (exec_all (construct w ht ps) h)
    ∧ (∀ a c, cells (exec_all (construct w ht ps) h) !! a = Some c →
         lists (exec_all (construct w ht ps) h) !! walls c = Some all_walls).
Proof.
  induction ps as [| [r k] ps IH]; intros h S Hu Hcells Hpos Hnd Hps.
  { simpl. split; [split |].
    - intros a c Ha. destruct (Hcells a c Ha) as (? & ? & _). by split.
    - exact Hpos.
    - intros a c Ha. by destruct (Hcells a c Ha) as (_ & _ & _ & ?). }
  apply NoDup_cons in Hnd as [Hrk Hnd].
  destruct (Hps (r, k) ltac:(left)) as [Hin HS].
  destruct Hu as [Hu Hlive].
  assert (Hl : ∀ b cb, cells h !! b = Some cb →
                 walls cb ≠ fresh (dom (lists h))).
  { intros b cb Hb E. destruct (Hlive b cb Hb) as [xs Hxs].
    by rewrite E, fresh_list in Hxs. }
  change (exec_all (construct w ht ((r, k) :: ps)) h)
    with (exec_all (construct w ht ps) (Cell_init r k w ht h).2).
  apply (IH _ ((r, k) :: S)).
  - by apply Cell_init_unshared.
  - intros a c. rewrite Cell_init_ok. simpl. rewrite lookup_insert_Some.
    intros [[<- <-] | [_ Ha]]; simpl.
    + split; [done |]. split; [done |]. split; [left |].
      by rewrite lookup_insert_eq.
    + destruct (Hcells a c Ha) as (? & ? & ? & ?).
      split; [done |]. split; [done |]. split; [by right |].
      rewrite lookup_insert_ne; [done |]. apply not_eq_sym. by apply (Hl a).
  - intros a b ca cb. rewrite Cell_init_ok. simpl.
    rewrite !lookup_insert_Some.
    intros [[<- <-] | [? Ha]] [[<- <-] | [? Hb]] Hp; try done.
    + destruct (Hcells b cb Hb) as (_ & _ & HbS & _).
      unfold position in Hp, HbS. simpl in Hp. by rewrite <- Hp in HbS.
    + destruct (Hcells a ca Ha) as (_ & _ & HaS & _).
      unfold position in Hp, HaS. simpl in Hp. by rewrite Hp in HaS.
    + by apply (Hpos a b ca cb).
  - done.
  - intros p Hp. destruct (Hps p ltac:(by right)) as [? ?].
    split; [done |]. apply not_elem_of_cons. split; [| done].
    intros ->. done.
Qed.

Lemma construct_invariants w ht ps :
  NoDup ps → Forall (in_bounds w ht) ps →
  heap_ok (exec_all (construct w ht ps) empty_heap)
  ∧ unshared (exec_all (construct w ht ps) empty_heap)
  ∧ maze w ht (exec_all (construct w ht ps) empty_heap)
  ∧ two_way (exec_all (construct w ht ps) empty_heap).
Proof.
  intros Hnd Hin.
  split; [apply reachable_heap_ok |].
  split.
  { apply exec_all_unshared; [| apply empty_heap_unshared].
    unfold construct. apply Forall_fmap, Forall_forall. by intros. }
  assert (Hno_cell : ∀ a (c : Cell), cells empty_heap !! a = Some c → False)
    by (intros a c Ha; simpl in Ha; by rewrite lookup_empty in Ha).
  destruct (construct_maze w ht ps empty_heap []) as [Hm Hclosed].
  - apply empty_heap_unshared.
  - intros a c Ha. by destruct (Hno_cell a c Ha).
  - intros a b ca cb Ha. by destruct (Hno_cell a ca Ha).
  - done.
  - intros p Hp. rewrite Forall_forall in Hin.
    split; [by apply Hin | apply not_elem_of_nil].
  - split; [done |].
    assert (Hno : ∀ a p, ¬ open_towards (exec_all (construct w ht ps) empty_heap) a p).
    { intros a p (c & ws & Ha & Hw & H).
      rewrite (Hclosed a c Ha) in Hw. injection Hw as <-.
      by rewrite wall_removed_all_walls in H. }
    intros a b ca cb _ _ _. split; intros H; by apply Hno in H.
Qed.

(** X14.  In a maze with one cell at each position, no two of which
    share a wall list, whose passages are all two-way, they stay so
    under any calls other than the constructor, [set_walls] and
    [remove_wall]: [remove_wall_between_cell] is the only one of them
    to write to a wall, and it removes walls in facing pairs. *)
Theorem passages_stay_two_way w ht h cs :
  heap_ok h → unshared h → maze w ht h → two_way h →
  Forall (λ c, is_carving c = true) cs →
  two_way (exec_all cs h).
Proof.
  intros Hh Hu Hm Htw Hcs.
  by apply (exec_all_carving w ht cs h Hcs).
Qed.

Lemma two_cells_heap_maze :
  heap_ok two_cells_heap ∧ unshared two_cells_heap
  ∧ maze 5 5 two_cells_heap ∧ two_way two_cells_heap.
Proof.
  apply (construct_invariants 5 5 [(1, 0); (0, 0)]).
  - by apply (bool_decide_unpack _); vm_compute.
  - unfold in_bounds. repeat constructor; simpl; lia.
Qed.

Lemma passages_stay_two_way_witness :
  let cs := [CallMakeVisited 1; CallRemoveWallBetweenCell 1 (VCell 2);
             CallRemoveWallBetweenCell 2 VNone; CallGetWalls 2] in
  (heap_ok two_cells_heap ∧ unshared two_cells_heap
   ∧ maze 5 5 two_cells_heap ∧ two_way two_cells_heap
   ∧ Forall (λ c, is_carving c = true) cs)
  ∧ two_way (exec_all cs two_cells_heap).
Proof.
  intros cs. destruct two_cells_heap_maze as (Hh & Hu & Hm & Htw).
  assert (Hcs : Forall (λ c, is_carving c = true) cs) by (repeat constructor).
  split; [done |]. by apply (passages_stay_two_way 5 5 two_cells_heap cs).
Defined.

(** X15.  In a maze constructed with one cell at each of a list of
    distinct positions in bounds, and then used through any calls other
    than the constructor, [set_walls] and [remove_wall], accessibility
    is mutual: [get_accessible_neighbors] of a cell lists the position
    of another cell exactly when that of the other lists the position
    of the first. *)
Theorem accessible_is_mutual w ht ps cs a b ca cb :
  NoDup ps → Forall (in_bounds w ht) ps →
  Forall (λ c, is_carving c = true) cs →
  cells (exec_all cs (exec_all (construct w ht ps) empty_heap)) !! a = Some ca →
  cells (exec_all cs (exec_all (construct w ht ps) empty_heap)) !! b = Some cb →
  ∃ acca accb,
    get_accessible_neighbors a
      (exec_all cs (exec_all (construct w ht ps) empty_heap))
    = (inr acca, exec_all cs (exec_all (construct w ht ps) empty_heap))
    ∧ get_accessible_neighbors b
        (exec_all cs (exec_all (construct w ht ps) empty_heap))
      = (inr accb, exec_all cs (exec_all (construct w ht ps) empty_heap))
    ∧ (position cb ∈ acca ↔ position ca ∈ accb).
Proof.
  intros Hnd Hin Hcs.
  destruct (exec_all_carving w ht cs _ Hcs (construct_invariants w ht ps Hnd Hin))
    as (Hh & _ & [Hm _] & Htw).
  set (h := exec_all cs (exec_all (construct w ht ps) empty_heap)) in *.
  intros Ha Hb.
  destruct (Hh a ca Ha) as (Hca & bsa & Hwa & Hla).
  destruct (Hh b cb Hb) as (Hcb & bsb & Hwb & Hlb).
  destruct (Hm a ca Ha) as [Hna Hina]. destruct (Hm b cb Hb) as [Hnb Hinb].
  eexists _, _.
  split; [by apply (get_accessible_neighbors_filter h a ca bsa) |].
  split; [by apply (get_accessible_neighbors_filter h b cb bsb) |].
  rewrite !list_elem_of_filter.
  assert (Hopa : ∀ p, wall_removed ca (bools bsa) p ↔ open_towards h a p).
  { intros p. rewrite (open_towards_iff h a ca (bools bsa)) by done.
    by rewrite <- wall_removed_true, Is_true_true. }
  assert (Hopb : ∀ p, wall_removed cb (bools bsb) p ↔ open_towards h b p).
  { intros p. rewrite (open_towards_iff h b cb (bools bsb)) by done.
    by rewrite <- wall_removed_true, Is_true_true. }
  rewrite Hopa, Hopb. split.
  - intros [Hop Hadj].
    split; [by apply (Htw a b ca cb) | by apply (init_neighbors_sym w ht ca cb)].
  - intros [Hop Hadj].
    assert (Hadj' : position cb ∈ neighbors ca)
      by by apply (init_neighbors_sym w ht cb ca).
    split; [by apply (Htw a b ca cb) | done].
Qed.

Lemma accessible_is_mutual_witness :
  let ps := [(1, 0); (0, 0)] in
  let cs := [CallRemoveWallBetweenCell 1 (VCell 2)] in
  let h := exec_all cs (exec_all (construct 5 5 ps) empty_heap) in
  (NoDup ps ∧ Forall (in_bounds 5 5) ps
   ∧ Forall (λ c, is_carving c = true) cs
   ∧ cells h !! 1%positive = Some (cell_1_0 1)
   ∧ cells h !! 2%positive = Some (cell_0_0 2))
  ∧ ∃ acca accb,
      get_accessible_neighbors 1 h = (inr acca, h)
      ∧ get_accessible_neighbors 2 h = (inr accb, h)
      ∧ (position (cell_0_0 2) ∈ acca ↔ position (cell_1_0 1) ∈ accb).
Proof.
  intros ps cs h.
  assert (H1 : NoDup ps) by (by apply (bool_decide_unpack _); vm_compute).
  assert (H2 : Forall (in_bounds 5 5) ps)
    by (unfold in_bounds; repeat constructor; simpl; lia).
  assert (H3 : Forall (λ c, is_carving c = true) cs) by (repeat constructor).
  split; [done |].
  by apply (accessible_is_mutual 5 5 ps cs 1 2 (cell_1_0 1) (cell_0_0 2)).
Defined.

(** ** The printed form *)

Ltac in_chars := apply list_elem_of_In; simpl; tauto.

Ltac not_in_chars :=
  let H := fresh in
  intros H; apply list_elem_of_In in H; simpl in H; intuition discriminate.

Lemma pretty_N_char_plain x a :
  a ∉ ["0"; "1"; "2"; "3"; "4"; "5"; "6"; "7"; "8"; "9"]%char →
  pretty_N_char x ≠ a.
Proof.
  intros Ha <-. apply Ha. unfold pretty_N_char.
  repeat case_match; in_chars.
Qed.

Lemma pretty_N_go_plain a x :
  a ∉ ["0"; "1"; "2"; "3"; "4"; "5"; "6"; "7"; "8"; "9"]%char →
  ∀ s, Forall (λ b, b ≠ a) (String.list_ascii_of_string s) →
       Forall (λ b, b ≠ a) (String.list_ascii_of_string (pretty_N_go x s)).
Proof.
  intros Ha. induction (N.lt_wf_0 x) as [x _ IH]; intros s Hs.
  destruct (decide (x = 0)%N) as [-> | Hx]; [by rewrite pretty_N_go_0 |].
  rewrite pretty_N_go_step by lia. apply IH.
  - apply N.div_lt; lia.
  - simpl. constructor; [by apply pretty_N_char_plain | done].
Qed.

Lemma pretty_Z_plain a (z : Z) :
  a ∉ ["-"; "0"; "1"; "2"; "3"; "4"; "5"; "6"; "7"; "8"; "9"]%char →
  Forall (λ b, b ≠ a) (String.list_ascii_of_string (pretty z)).
Proof.
  intros Ha.
  assert (Ha' : a ∉ ["0"; "1"; "2"; "3"; "4"; "5"; "6"; "7"; "8"; "9"]%char)
    by (intros H; apply Ha; by right).
  assert (HN : ∀ n : N, Forall (λ b, b ≠ a) (String.list_ascii_of_string (pretty n))).
  { intros n. unfold pretty, pretty_N. destruct (decide (n = 0)%N).
    - repeat constructor. intros <-. apply Ha. in_chars.
    - apply pretty_N_go_plain; [done | constructor]. }
  destruct z as [| p | p]; unfold pretty, pretty_Z; simpl.
  - repeat constructor. intros <-. apply Ha. in_chars.
  - apply HN.
  - constructor; [intros <-; apply Ha; in_chars | apply HN].
Qed.

Lemma split_at_char a s1 s2 r1 r2 :
  Forall (λ b, b ≠ a) (String.list_ascii_of_string s1) →
  Forall (λ b, b ≠ a) (String.list_ascii_of_string s2) →
  s1 +:+ String a r1 = s2 +:+ String a r2 → s1 = s2 ∧ r1 = r2.
Proof.
  revert s2. induction s1 as [| b s1 IH]; intros [| b' s2] H1 H2; simpl.
  - by intros [= ->].
  - intros [= <- _]. by apply Forall_cons in H2 as [? _].
  - intros [= -> _]. by apply Forall_cons in H1 as [? _].
  - intros [= -> E]. simpl in H1, H2.
    apply Forall_cons in H1 as [_ H1]. apply Forall_cons in H2 as [_ H2].
    destruct (IH s2 H1 H2 E) as [-> ->]. done.
Qed.

Lemma Cell_str_ok h a c :
  cells h !! a = Some c →
  Cell_str a h
  = (inr ("(" +:+ pretty (row c) +:+ ", " +:+ pretty (col c) +:+ ")"), h).
Proof.
  intros Ha. unfold Cell_str.
  by rewrite (bind_ok _ _ _ _ _ (get_cell_ok _ _ _ Ha)).
Qed.

(** X16.  The printed form of a cell tells its position: [str] and
    [repr] return the same string, change nothing, and two cells print
    alike only if they have the same row and the same column. *)
Theorem str_tells_position h a b ca cb :
  cells h !! a = Some ca → cells h !! b = Some cb →
  Cell_repr a h = Cell_str a h
  ∧ (Cell_str a h).2 = h
  ∧ ((Cell_str a h).1 = (Cell_str b h).1 → position ca = position cb).
Proof.
  intros Ha Hb. split; [done |].
  rewrite (Cell_str_ok h a ca Ha), (Cell_str_ok h b cb Hb). simpl.
  split; [done |]. intros [= E].
  apply (split_at_char ","%char) in E as [Er E];
    [| apply pretty_Z_plain; not_in_chars ..].
  injection E as E.
  apply (split_at_char ")"%char) in E as [Ek _];
    [| apply pretty_Z_plain; not_in_chars ..].
  apply (inj pretty) in Er, Ek. unfold position. by rewrite Er, Ek.
Qed.

Lemma str_tells_position_witness :
  let h := (run (a <- Cell_init 12 (-3) 50 50 ;; Cell_init 12 (-3) 20 20)).2 in
  let ca := mkCell 12 (-3) [] false 1 in
  let cb := mkCell 12 (-3) [] false 2 in
  (cells h !! 1%positive = Some ca ∧ cells h !! 2%positive = Some cb)
  ∧ (Cell_str 1 h).1 = inr "(12, -3)"
  ∧ position ca = position cb.
Proof.
  intros h ca cb. split; [done |]. split; [done |].
  by apply (str_tells_position h 1 2 ca cb).
Defined.

(** ** Cells that a call does not concern *)

(** X17.  In a store where every cell has four boolean walls of its
    own, [a.remove_wall_between_cell(b)] changes neither the walls nor
    the accessible neighbors of any third cell, whether it returns or
    raises. *)
Theorem carving_concerns_two_cells h a b c cc :
  heap_ok h → unshared h →
  c ≠ a → c ≠ b → cells h !! c = Some cc →
  walls_of (remove_wall_between_cell a (VCell b) h).2 c = walls_of h c
  ∧ (get_accessible_neighbors c (remove_wall_between_cell a (VCell b) h).2).1
    = (get_accessible_neighbors c h).1.
Proof.
  intros Hh Hu Hca Hcb Hc.
  destruct (remove_wall_between_cell_cases h a (VCell b) Hh)
    as [(e & -> & _) | (y & cx & cy & i & j & [= <-] & Hxy & Hx & Hy & _
                        & _ & _ & ->)]; [done |].
  simpl. destruct (Hh c cc Hc) as (Hcc & bs & Hw & Hlen).
  set (h' := clear_wall (walls cy) j (clear_wall (walls cx) i h)).
  assert (Hw' : lists h' !! walls cc = Some (bools bs)).
  { unfold h'. rewrite !lookup_clear_wall, Hw.
    rewrite !decide_False; [done | |]; apply not_eq_sym.
    - by apply (Hu c a cc cx).
    - by apply (Hu c b cc cy). }
  split.
  - unfold walls_of. change (cells h' !! c) with (cells h !! c).
    rewrite Hc. simpl. rewrite Hw. exact Hw'.
  - rewrite (get_accessible_neighbors_filter h' c cc bs) by done.
    by rewrite (get_accessible_neighbors_filter h c cc bs).
Qed.

Lemma carving_concerns_two_cells_witness :
  let h := exec_all (construct 5 5 [(1, 0); (0, 0); (1, 1)]) empty_heap in
  (heap_ok h ∧ unshared h ∧ (3 ≠ 1)%positive ∧ (3 ≠ 2)%positive
   ∧ cells h !! 3%positive
     = Some (mkCell 1 1 [(0, 1); (1, 2); (2, 1); (1, 0)] false 3))
  ∧ walls_of (remove_wall_between_cell 1 (VCell 2) h).2 3 = walls_of h 3
  ∧ (get_accessible_neighbors 3 (remove_wall_between_cell 1 (VCell 2) h).2).1
    = (get_accessible_neighbors 3 h).1.
Proof.
  intros h.
  assert (Hh : heap_ok h) by apply reachable_heap_ok.
  assert (Hu : unshared h).
  { apply exec_all_unshared; [repeat constructor | apply empty_heap_unshared]. }
  split; [done |].
  by apply (carving_concerns_two_cells h 1 2 3
              (mkCell 1 1 [(0, 1); (1, 2); (2, 1); (1, 0)] false 3)).
Defined.

(** X18.  Constructing a cell leaves the cells of the store as they
    are, flags and walls, and gives the new cell a reference and a wall
    list that no cell of the store had: a new cell shares nothing. *)
Theorem construction_disturbs_nothing r k w ht h :
  walls_live h →
  ∃ a h' c,
    Cell_init r k w ht h = (inr a, h')
    ∧ cells h !! a = None
    ∧ cells h' !! a = Some c
    ∧ walls_of h' a = Some (bools [true; true; true; true])
    ∧ ∀ b cb, cells h !! b = Some cb →
        cells h' !! b = Some cb
        ∧ walls cb ≠ walls c
        ∧ walls_of h' b = walls_of h b.
Proof.
  intros Hlive. eexists _, _, _. split; [apply Cell_init_ok |].
  split; [apply fresh_cell |].
  split; [simpl; apply lookup_insert_eq |].
  split; [unfold walls_of; simpl; rewrite lookup_insert_eq; simpl;
          apply lookup_insert_eq |].
  intros b cb Hb.
  assert (Hne : fresh (dom (cells h)) ≠ b)
    by (intros <-; by rewrite fresh_cell in Hb).
  assert (Hl : walls cb ≠ fresh (dom (lists h))).
  { intros E. destruct (Hlive b cb Hb) as [xs Hxs].
    by rewrite E, fresh_list in Hxs. }
  split; [simpl; by rewrite lookup_insert_ne |].
  split; [done |].
  unfold walls_of. simpl. rewrite lookup_insert_ne, Hb by done. simpl.
  by rewrite lookup_insert_ne.
Qed.

Lemma construction_disturbs_nothing_witness :
  walls_live shared_walls_heap
  ∧ ∃ a h' c,
      Cell_init 0 1 5 5 shared_walls_heap = (inr a, h')
      ∧ cells shared_walls_heap !! a = None
      ∧ cells h' !! a = Some c
      ∧ walls_of h' a = Some (bools [true; true; true; true])
      ∧ ∀ b cb, cells shared_walls_heap !! b = Some cb →
          cells h' !! b = Some cb
          ∧ walls cb ≠ walls c
          ∧ walls_of h' b = walls_of shared_walls_heap b.
Proof.
  assert (H : walls_live shared_walls_heap).
  { apply heap_ok_walls_live.
    exact (reachable_heap_ok
             [CallInit 1 0 5 5; CallInit 0 0 5 5;
              CallList (bools [true; true; true; true]);
              CallSetWalls 1 3; CallSetWalls 2 3]). }
  split; [done |]. by apply (construction_disturbs_nothing 0 1 5 5).
Defined.
